(** * Namespaced state over a shared container (jotai-persist.tsx)

    A verification model of the namespaced accessor of [jotai-persist.tsx]:
    the read function and the write function of [createNamespacedAtom], the
    helper [setDeepValue], the provider [StateNamespaceProvider], and the
    memoisation helpers [useMemoEqual] and [compareStringArrays].

    The container is a JavaScript object graph.  Objects have identity, so
    they live in a store ([heap]) and values refer to them by location; the
    code never assigns to a property of an existing object, so the store only
    ever grows.  Values are [undefined] and the JSON values: [null],
    booleans, numbers, strings, arrays and plain objects.

    Member access [v[k]] is modelled on own properties: a plain object
    holds a finite map of properties, arrays and strings expose their index
    properties and [length].  In JavaScript a key that names a member of a
    built-in prototype ([constructor], [toString], [__proto__], ...) also
    finds that member, which may be a function or an accessor.  The model
    does not follow these: [plain_key] tells the keys that name no such
    member, for which the own properties are all there is to find, and the
    properties below that depend on what a lookup finds are stated for
    paths and keys that are plain where they are looked up.

    Numbers are the integers among the IEEE 754 doubles; the result of an
    addition is rounded as a double is ([double_round]).  A string is the
    sequence of its UTF-16 code units, one character of the model for each
    unit (so the code units of the model's strings are below 256).

    The reactive library is taken at its contract: [get] of the storage
    atom yields the current container, [set] with a function replaces the
    container by the function's result on the current one. *)

From Stdlib Require Import ZArith DecimalString DecimalNat.
From stdpp Require Import gmap strings list fin_maps.

Open Scope string_scope.
Open Scope list_scope.

(** ** Values and the object store *)

Abbreviation loc := nat.

Inductive val :=
  | VUndefined
  | VNull
  | VBool (b : bool)
  | VNum (n : Z)
  | VStr (s : string)
  | VRef (l : loc).

(** What a location holds: a plain object (its own enumerable properties)
    or an array (its elements). *)
Inductive hobj :=
  | HObj (props : gmap string val)
  | HArr (elems : list val).

Abbreviation heap := (list hobj).

Global Instance val_eq_dec : EqDecision val.
Proof. solve_decision. Defined.

(** [alloc h o] is the evaluation of an object literal: a new location at
    the end of the store. *)
Definition alloc (h : heap) (o : hobj) : heap * val :=
  (h ++ [o], VRef (length h)).

(** JavaScript truthiness: [undefined], [null], [false], [0] and the empty
    string are falsy; every object is truthy. *)
Definition truthy (v : val) : bool :=
  match v with
  | VUndefined | VNull => false
  | VBool b => b
  | VNum n => negb (n =? 0)%Z
  | VStr s => negb (String.eqb s "")
  | VRef _ => true
  end.

(** The values that [??] replaces. *)
Definition nullish (v : val) : bool :=
  match v with
  | VUndefined | VNull => true
  | _ => false
  end.

(** The property name of array index [i]: its decimal numeral. *)
Definition key_of_index (i : nat) : string :=
  NilZero.string_of_uint (Nat.to_uint i).

(** The index properties of a sequence: "0", "1", ... *)
Definition index_props (xs : list val) : gmap string val :=
  list_to_map (imap (fun i v => (key_of_index i, v)) xs).

(** The code units of a string, as one-unit string values: a character of
    the model stands for one UTF-16 code unit. *)
Fixpoint chars (s : string) : list val :=
  match s with
  | EmptyString => []
  | String c s' => VStr (String c EmptyString) :: chars s'
  end.

(** [enumerable h v]: the own enumerable properties of [v], which is what
    the spread [{...v}] copies.  Primitives other than strings have none;
    neither have [null] and [undefined]. *)
Definition enumerable (h : heap) (v : val) : gmap string val :=
  match v with
  | VRef l =>
      match h !! l with
      | Some (HObj m) => m
      | Some (HArr xs) => index_props xs
      | None => ∅
      end
  | VStr s => index_props (chars s)
  | _ => ∅
  end.

(** Arrays and strings also have the non-enumerable own property [length]. *)
Definition length_of (h : heap) (v : val) : option nat :=
  match v with
  | VRef l =>
      match h !! l with
      | Some (HArr xs) => Some (length xs)
      | _ => None
      end
  | VStr s => Some (String.length s)
  | _ => None
  end.

(** [get h v k] is the member access [v[k]].  It throws a TypeError on
    [null] and [undefined] (here [None]); on any other value it yields the
    own property, or [undefined] when there is none.  This is what the
    access yields whenever [k] is a plain key (see [plain_key] below);
    members found on a built-in prototype are not followed. *)
Definition get (h : heap) (v : val) (k : string) : option val :=
  if nullish v then None
  else
    match length_of h v with
    | Some n =>
        if decide (k = "length") then Some (VNum (Z.of_nat n))
        else Some (default VUndefined (enumerable h v !! k))
    | None => Some (default VUndefined (enumerable h v !! k))
    end.

(** ** Keys that name no built-in member *)

(** The string-keyed members of [Object.prototype], [Array.prototype],
    [String.prototype], [Number.prototype] and [Boolean.prototype], the
    prototypes of the values of the model (ECMAScript 2025 with its
    Annex B, and a few names that engines have carried besides).  [length]
    is not among them: arrays and strings have it as an own property, and
    no other value of the model inherits one. *)
Definition builtin_members : list string :=
  [ (* Object.prototype *)
    "constructor"; "hasOwnProperty"; "isPrototypeOf"; "propertyIsEnumerable";
    "toLocaleString"; "toString"; "valueOf"; "__proto__";
    "__defineGetter__"; "__defineSetter__"; "__lookupGetter__";
    "__lookupSetter__";
    (* Array.prototype *)
    "at"; "concat"; "copyWithin"; "entries"; "every"; "fill"; "filter";
    "find"; "findIndex"; "findLast"; "findLastIndex"; "flat"; "flatMap";
    "forEach"; "includes"; "indexOf"; "join"; "keys"; "lastIndexOf"; "map";
    "pop"; "push"; "reduce"; "reduceRight"; "reverse"; "shift"; "slice";
    "some"; "sort"; "splice"; "toReversed"; "toSorted"; "toSpliced";
    "unshift"; "values"; "with";
    (* String.prototype *)
    "anchor"; "big"; "blink"; "bold"; "charAt"; "charCodeAt"; "codePointAt";
    "endsWith"; "fixed"; "fontcolor"; "fontsize"; "isWellFormed"; "italics";
    "link"; "localeCompare"; "match"; "matchAll"; "normalize"; "padEnd";
    "padStart"; "repeat"; "replace"; "replaceAll"; "search"; "small"; "split";
    "startsWith"; "strike"; "sub"; "substr"; "substring"; "sup";
    "toLocaleLowerCase"; "toLocaleUpperCase"; "toLowerCase"; "toUpperCase";
    "toWellFormed"; "trim"; "trimEnd"; "trimLeft"; "trimRight"; "trimStart";
    (* Number.prototype *)
    "toExponential"; "toFixed"; "toPrecision";
    (* carried by some engines *)
    "toSource"; "watch"; "unwatch"; "group"; "groupToMap"; "contains";
    "quote" ].

(** A plain key names no built-in member; names that begin with two
    underscores are left to the engine altogether. *)
Definition plain_key (k : string) : bool :=
  negb (existsb (String.eqb k) builtin_members) && negb (String.prefix "__" k).

(** A path of plain keys. *)
Definition plain_path (p : list string) : bool := forallb plain_key p.

(** [or_empty h v] is [v || {}]: a falsy [v] is replaced by a newly
    allocated empty object. *)
Definition or_empty (h : heap) (v : val) : heap * val :=
  if truthy v then (h, v) else alloc h (HObj ∅).

(** ** The read function of [createNamespacedAtom] (lines 93-99) *)

(** The [for (const segment of path)] loop:
    [state = state[segment] || {}]. *)
Fixpoint descend (h : heap) (state : val) (path : list string)
  : option (heap * val) :=
  match path with
  | [] => Some (h, state)
  | segment :: rest =>
      match get h state segment with
      | None => None
      | Some v =>
          let '(h1, state1) := or_empty h v in
          descend h1 state1 rest
      end
  end.

(** [read h root path key defaultValue]: the loop, then
    [state[key] ?? defaultValue].  The store is returned as well because
    the loop may allocate empty objects. *)
Definition read (h : heap) (root : val) (path : list string) (key : string)
    (defaultValue : val) : option (heap * val) :=
  match descend h root path with
  | None => None
  | Some (h1, state) =>
      match get h1 state key with
      | None => None
      | Some v => Some (h1, if nullish v then defaultValue else v)
      end
  end.

(** The value a read returns. *)
Definition read_value (h : heap) (root : val) (path : list string)
    (key : string) (defaultValue : val) : option val :=
  snd <$> read h root path key defaultValue.

(** ** [setDeepValue] (lines 180-199) *)

(** [{ ...obj, [key]: value }] at the end of the path, and
    [{ ...obj, [first]: setDeepValue(obj[first] || {}, rest, key, value) }]
    before.  The literal's object enters the store once its properties are
    complete. *)
Fixpoint setDeepValue (h : heap) (obj : val) (keys : list string)
    (key : string) (value : val) : option (heap * val) :=
  match keys with
  | [] => Some (alloc h (HObj (<[key := value]> (enumerable h obj))))
  | first :: rest =>
      match get h obj first with
      | None => None
      | Some v =>
          let '(h1, child) := or_empty h v in
          match setDeepValue h1 child rest key value with
          | None => None
          | Some (h2, sub) =>
              Some (alloc h2 (HObj (<[first := sub]> (enumerable h obj))))
          end
      end
  end.

(** ** The write function of [createNamespacedAtom] (lines 100-110) *)

(** The storage atom's current value: a store and the root container. *)
Record store := { st_heap : heap; st_root : val }.

(** The argument of the setter, [T | ((prev: T) => T)]: a plain value, or
    an updater, which may itself allocate. *)
Inductive update :=
  | UValue (v : val)
  | UFun (f : heap -> val -> heap * val).

(** [get(baseAtom)] reads through the current container, the updater (if
    any) is applied to that value, and the storage atom is set to
    [setDeepValue(prevState, path, key, newValue)]. *)
Definition write (s : store) (path : list string) (key : string)
    (defaultValue : val) (u : update) : option store :=
  match read (st_heap s) (st_root s) path key defaultValue with
  | None => None
  | Some (h1, currentValue) =>
      let '(h2, newValue) :=
        match u with
        | UFun f => f h1 currentValue
        | UValue v => (h1, v)
        end in
      match setDeepValue h2 (st_root s) path key newValue with
      | None => None
      | Some (h3, r) => Some {| st_heap := h3; st_root := r |}
      end
  end.

(** The largest magnitude up to which every integer is a double. *)
Definition max_exact : Z := 2 ^ 53.

(** [double_round m] is the double nearest to the integer [m], a tie going
    to the even significand: the value a computation with the exact result
    [m] yields.  Integers of magnitude up to [2^53] are doubles themselves;
    beyond, doubles lie [2^(e-52)] apart, where [2^e] is the largest power
    of two below the magnitude.  (The overflow to infinity, from [2^1024]
    on, is left out: the model has no infinite number.) *)
Definition double_round (m : Z) : Z :=
  let a := Z.abs m in
  if (a <=? max_exact)%Z then m
  else
    let ulp := (2 ^ (Z.log2 a - 52))%Z in
    let q := (a / ulp)%Z in
    let r := (a mod ulp)%Z in
    let q' :=
      match (2 * r ?= ulp)%Z with
      | Lt => q
      | Gt => (q + 1)%Z
      | Eq => if Z.even q then q else (q + 1)%Z
      end in
    (Z.sgn m * (q' * ulp))%Z.

(** The counters' updater [(c) => c + 1].  On a number the sum is rounded
    as a double; on a string [+] appends ["1"]; [true], [false] and [null]
    count as [1], [0] and [0].  The counters' state is a number: on
    [undefined] and on an object, where the sum is NaN or a string built
    from the object, the model has no value to give and leaves the argument
    as it is. *)
Definition plus_one (h : heap) (prev : val) : heap * val :=
  match prev with
  | VNum n => (h, VNum (double_round (n + 1)))
  | VStr s => (h, VStr (String.append s "1"))
  | VBool b => (h, VNum (if b then 2 else 1))
  | VNull => (h, VNum 1)
  | other => (h, other)
  end.

(** A write as the setter performs it, and a sequence of writes. *)
Record write_op := {
  w_path : list string;
  w_key : string;
  w_default : val;
  w_value : val
}.

Definition full_path (w : write_op) : list string := w_path w ++ [w_key w].

Fixpoint run_writes (s : store) (ws : list write_op) : option store :=
  match ws with
  | [] => Some s
  | w :: ws' =>
      match write s (w_path w) (w_key w) (w_default w) (UValue (w_value w)) with
      | None => None
      | Some s1 => run_writes s1 ws'
      end
  end.

(** The empty root container [{}]. *)
Definition empty_store : store := {| st_heap := [HObj ∅]; st_root := VRef 0 |}.

(** ** Well-formed stores, subtrees, paths *)

(** No dangling reference: every location mentioned lies in the store. *)
Definition val_ok (h : heap) (v : val) : Prop :=
  match v with
  | VRef l => l < length h
  | _ => True
  end.

Definition obj_ok (h : heap) (o : hobj) : Prop :=
  match o with
  | HObj m => map_Forall (fun _ v => val_ok h v) m
  | HArr xs => Forall (val_ok h) xs
  end.

Definition heap_ok (h : heap) : Prop := Forall (obj_ok h) h.

(** A container in the sense of [Record<string, unknown>]: a plain object. *)
Definition is_record (h : heap) (v : val) : Prop :=
  exists l m, v = VRef l /\ h !! l = Some (HObj m).

Definition store_ok (s : store) : Prop :=
  heap_ok (st_heap s) /\ is_record (st_heap s) (st_root s).

(** The empty root container [{}], in a store that may hold other objects
    (the values to be written). *)
Definition empty_root (s : store) : Prop :=
  exists l, st_root s = VRef l /\ st_heap s !! l = Some (HObj ∅).

(** A value without own properties to look up: a falsy value, a boolean
    or a number. *)
Definition propless (v : val) : bool :=
  match v with
  | VRef _ => false
  | VStr s => String.eqb s ""
  | _ => true
  end.

(** The subtree of the container at a path of keys: the descent through
    own enumerable properties, that is, the properties of mappings and the
    elements of arrays (and the characters of strings). *)
Fixpoint subtree (h : heap) (v : val) (q : list string) : option val :=
  match q with
  | [] => Some v
  | k :: q' =>
      match enumerable h v !! k with
      | Some w => subtree h w q'
      | None => None
      end
  end.

(** Two paths diverge when neither is a prefix of the other. *)
Definition diverge (p q : list string) : Prop :=
  ~ p `prefix_of` q /\ ~ q `prefix_of` p.

(** ** [StateNamespaceProvider] (lines 35-69) *)

(** A storage atom is known by its identity. *)
Abbreviation atom := nat.

Record context := {
  namespace : list string;
  namespaceAtom : atom
}.

(** The props [namespace?: string] and [rootAtom?]. *)
Record provider_props := {
  p_namespace : option string;
  p_rootAtom : option atom
}.

(** The context a provider hands to its children.  [namespace ? ... : ...]
    tests truthiness, so the empty string adds no segment. *)
Definition StateNamespaceProvider (parentContext : context)
    (props : provider_props) : context :=
  let newNamespace :=
    match p_namespace props with
    | Some ns =>
        if String.eqb ns "" then namespace parentContext
        else namespace parentContext ++ [ns]
    | None => namespace parentContext
    end in
  let isRootNamespace := Nat.eqb (length (namespace parentContext)) 0 in
  let namespaceAtom' :=
    match p_rootAtom props with
    | Some rootAtom =>
        if isRootNamespace then rootAtom else namespaceAtom parentContext
    | None => namespaceAtom parentContext
    end in
  {| namespace := newNamespace; namespaceAtom := namespaceAtom' |}.

(** The context at the bottom of a chain of nested providers, outermost
    first. *)
Definition nest (ctx : context) (scopes : list provider_props) : context :=
  fold_left StateNamespaceProvider scopes ctx.

(** The default value of [NamespaceContext]. *)
Definition default_context (defaultAtom : atom) : context :=
  {| namespace := []; namespaceAtom := defaultAtom |}.

(** The selection as the specification words it: a scope's declared
    container is taken when no ancestor scope established one; otherwise
    the nearest ancestor's container is inherited. *)
Fixpoint spec_selection (established : option atom)
    (scopes : list provider_props) : option atom :=
  match scopes with
  | [] => established
  | p :: rest =>
      match established, p_rootAtom p with
      | None, Some a => spec_selection (Some a) rest
      | _, _ => spec_selection established rest
      end
  end.

(** ** [compareStringArrays] (lines 146-152) and [useMemoEqual] *)

(** The [for] loop from index [i], with [n] iterations left. *)
Fixpoint compare_loop (a b : list string) (i n : nat) : bool :=
  match n with
  | 0 => true
  | S n' =>
      if decide (a !! i <> b !! i) then false else compare_loop a b (S i) n'
  end.

Definition compareStringArrays (a b : list string) : bool :=
  if decide (length a <> length b) then false
  else compare_loop a b 0 (length a).

(** A value of type [T] that may be [null] or [undefined]. *)
Inductive nullable (A : Type) :=
  | JUndefined
  | JNull
  | JSome (a : A).
Arguments JUndefined {A}.
Arguments JNull {A}.
Arguments JSome {A} a.

Section MemoEqual.
Context {A : Type}.
(** [===] on two values that are not null: identity of reference. *)
Variable same : A -> A -> bool.

Definition strict_eq (x y : nullable A) : bool :=
  match x, y with
  | JUndefined, JUndefined => true
  | JNull, JNull => true
  | JSome a, JSome b => same a b
  | _, _ => false
  end.

(** [ref] is [None] on the first render, when [useRef(value)] stores
    [value]; afterwards it holds [ref.current].  The result is the new
    [ref.current], which is also what the hook returns. *)
Definition useMemoEqual (ref : option (nullable A)) (value : nullable A)
    (checkEqual : option (A -> A -> bool)) : nullable A :=
  let current := match ref with None => value | Some c => c end in
  let isEqual :=
    strict_eq value current
    || match value, current, checkEqual with
       | JSome v, JSome c, Some chk => chk v c
       | _, _, _ => false
       end in
  if isEqual then current else value.
End MemoEqual.

(** Path arrays are objects too: [arrays] holds their elements by
    location, and [===] compares locations. *)
Definition path_elems (arrays : list (list string)) (l : loc) : list string :=
  default [] (arrays !! l).

Definition compare_paths (arrays : list (list string)) (a b : loc) : bool :=
  compareStringArrays (path_elems arrays a) (path_elems arrays b).

(** [useMemoEqual(path, compareStringArrays)] of [useStateNamespaceAtom]. *)
Definition memo_path (arrays : list (list string)) (ref : option (nullable loc))
    (path : loc) : nullable loc :=
  useMemoEqual Nat.eqb ref (JSome path) (Some (compare_paths arrays)).

(** An updater is well behaved when it keeps the store well formed: it
    may allocate, and returns a value of the store it leaves. *)
Definition updater_ok (f : heap -> val -> heap * val) : Prop :=
  forall h v, heap_ok h -> val_ok h v ->
    h `prefix_of` (f h v).1 /\ heap_ok (f h v).1 /\ val_ok (f h v).1 (f h v).2.

Global Instance val_ok_dec h v : Decision (val_ok h v).
Proof. destruct v; simpl; apply _. Defined.

Global Instance obj_ok_dec h o : Decision (obj_ok h o).
Proof. destruct o; simpl; apply _. Defined.

Global Instance heap_ok_dec h : Decision (heap_ok h).
Proof. unfold heap_ok. apply _. Defined.

(** ** Sample containers *)

(** [{ a: { b: { count: 7 } }, n: 5, s: "xy" }], root at location 0. *)
Definition sample_heap : heap :=
  [ HObj (<["a" := VRef 1]> (<["n" := VNum 5]> (<["s" := VStr "xy"]> ∅)));
    HObj {["b" := VRef 2]};
    HObj {["count" := VNum 7]} ].

Definition sample_store : store :=
  {| st_heap := sample_heap; st_root := VRef 0 |}.

(** The write of the specification's scenario:
    [write(["a","b"], "count", 1)] with default [0]. *)
Definition scenario_op : write_op :=
  {| w_path := ["a"; "b"]; w_key := "count";
     w_default := VNum 0; w_value := VNum 1 |}.

(** ** The rest of the module *)

(** [useStateNamespace] (lines 81-84): the path of a namespace is the
    ambient path followed by the additional segments. *)
Definition useStateNamespace (ctx : context) (additionalPath : list string)
  : list string :=
  namespace ctx ++ additionalPath.

(** [namespace?.path || context.namespace] in [useStateNamespaceAtom]
    (lines 162-165): an array is truthy even when empty, so a namespace
    that is given always wins. *)
Definition hook_path (ns : option (list string)) (ctx : context)
  : list string :=
  match ns with
  | Some path => path
  | None => namespace ctx
  end.

(** The segment a provider adds to the path: its [namespace] prop when it
    is a non-empty string. *)
Definition segment_of (props : provider_props) : list string :=
  match p_namespace props with
  | Some ns => if String.eqb ns "" then [] else [ns]
  | None => []
  end.

(** [getCurrentState] of [StateDebugger] (lines 206-215): the same loop as
    the read's, returning the node it ends on. *)
Definition getCurrentState (h : heap) (state : val) (path : list string)
  : option (heap * val) :=
  descend h state path.

(** A series of clicks on counters, [setCount((c) => c + 1)], each at the
    namespace path of its counter (the test's [CounterContent]). *)
Fixpoint clicks (s : store) (key : string) (d : val)
    (ps : list (list string)) : option store :=
  match ps with
  | [] => Some s
  | p :: ps' =>
      match write s p key d (UFun plus_one) with
      | None => None
      | Some s1 => clicks s1 key d ps'
      end
  end.

(** [useMemoEqual(path, compareStringArrays)] over successive renders:
    [ref.current] of one render is the ref of the next. *)
Fixpoint memo_renders (arrays : list (list string))
    (ref : option (nullable loc)) (paths : list loc) : list (nullable loc) :=
  match paths with
  | [] => []
  | p :: ps =>
      let r := memo_path arrays ref p in
      r :: memo_renders arrays (Some r) ps
  end.

(** The write function of [createNamespacedReducerAtom]: the reducer is
    applied to the value read through the current container and to the
    action, and the result is stored with [setDeepValue]. *)
Definition dispatch {A : Type} (s : store) (path : list string)
    (key : string) (reducer : heap -> val -> A -> heap * val)
    (initialState : val) (action : A) : option store :=
  match read (st_heap s) (st_root s) path key initialState with
  | None => None
  | Some (h1, currentState) =>
      let '(h2, newState) := reducer h1 currentState action in
      match setDeepValue h2 (st_root s) path key newState with
      | None => None
      | Some (h3, r) => Some {| st_heap := h3; st_root := r |}
      end
  end.

Fixpoint dispatch_all {A : Type} (s : store) (path : list string)
    (key : string) (reducer : heap -> val -> A -> heap * val)
    (initialState : val) (actions : list A) : option store :=
  match actions with
  | [] => Some s
  | a :: rest =>
      match dispatch s path key reducer initialState a with
      | None => None
      | Some s1 => dispatch_all s1 path key reducer initialState rest
      end
  end.

(** [typeof v === "object"]: objects, arrays and [null]. *)
Definition is_object (v : val) : bool :=
  match v with
  | VNull | VRef _ => true
  | _ => false
  end.

(** [getNestedValue] of the earlier prototypes: the loop gives up with
    [undefined] as soon as the current value is falsy or not an object. *)
Fixpoint getNestedValue (h : heap) (current : val) (path : list string)
  : option val :=
  match path with
  | [] => Some current
  | key :: rest =>
      if negb (truthy current) || negb (is_object current)
      then Some VUndefined
      else
        match get h current key with
        | None => None
        | Some v => getNestedValue h v rest
        end
  end.

(** The test's reducer over [{ value: number }] states:
    [INCREMENT] and [DECREMENT] return a new object.  It is modelled on
    states whose [value] is a number; another [value] is carried along, as
    the model has no NaN.  (On a [null] state [state.value] would throw; the
    atom never passes one, since the state is read with an initial state
    that is an object.) *)
Inductive CounterAction := INCREMENT | DECREMENT.

Definition counterReducer (h : heap) (state : val) (action : CounterAction)
  : heap * val :=
  let value := default VUndefined (get h state "value") in
  match value with
  | VNum n =>
      match action with
      | INCREMENT => alloc h (HObj {["value" := VNum (n + 1)]})
      | DECREMENT => alloc h (HObj {["value" := VNum (n - 1)]})
      end
  | other => alloc h (HObj {["value" := other]})
  end.

(** The number a counter state holds, when it holds one. *)
Definition counter_value (h : heap) (state : val) : option Z :=
  match get h state "value" with
  | Some (VNum n) => Some n
  | _ => None
  end.

Definition counter_step (n : Z) (action : CounterAction) : Z :=
  match action with
  | INCREMENT => n + 1
  | DECREMENT => n - 1
  end.

(** [{ value: 0 }] at location 1, beside the empty root container. *)
Definition reducer_store : store :=
  {| st_heap := [HObj ∅; HObj {["value" := VNum 0]}]; st_root := VRef 0 |}.

(** ** The writer of the earlier prototypes *)

(** [current[key] = x] on a plain object.  (The writer below only ever
    assigns to objects it has just created with a literal.)  The
    assignment creates or replaces the own property [key]; for the key
    [__proto__], which the setter of [Object.prototype] intercepts, it does
    not, and the properties that read the assigned value back leave that
    key out. *)
Definition set_prop (h : heap) (l : loc) (key : string) (x : val) : heap :=
  match h !! l with
  | Some (HObj m) => <[l := HObj (<[key := x]> m)]> h
  | _ => h
  end.

(** The loop [current[key] = { ...(current[key] || {}) }; current =
    current[key]] over the namespace segments, then
    [current[last] = newValue]. *)
Fixpoint assign_path (h : heap) (current : loc) (segments : list string)
    (last : string) (newValue : val) : option heap :=
  match segments with
  | [] => Some (set_prop h current last newValue)
  | key :: rest =>
      match get h (VRef current) key with
      | None => None
      | Some v =>
          let '(h1, source) := or_empty h v in
          let copy := length h1 in
          let h2 := h1 ++ [HObj (enumerable h1 source)] in
          assign_path (set_prop h2 current key (VRef copy)) copy rest last
            newValue
      end
  end.

(** The state update of [usePersistedAtom]: [const result = { ...state }],
    the loop along [path = [...namespace, key]], [return result]. *)
Definition write_in_place (h : heap) (state : val) (namespace : list string)
    (key : string) (newValue : val) : option (heap * val) :=
  match assign_path (h ++ [HObj (enumerable h state)]) (length h) namespace
          key newValue with
  | Some h' => Some (h', VRef (length h))
  | None => None
  end.

(** The read of [usePersistedAtom]:
    [getNestedValue(root, [...namespace, key]) ?? defaultValue]. *)
Definition read_nested (h : heap) (root : val) (namespace : list string)
    (key : string) (defaultValue : val) : option val :=
  match getNestedValue h root (namespace ++ [key]) with
  | None => None
  | Some v => Some (if nullish v then defaultValue else v)
  end.

Definition is_string (v : val) : bool :=
  match v with
  | VStr _ => true
  | _ => false
  end.

(** A store that holds no string: counters, flags and namespaces only. *)
Definition no_strings (h : heap) : Prop :=
  Forall (fun o =>
            match o with
            | HObj m => map_Forall (fun _ v => is_string v = false) m
            | HArr xs => Forall (fun v => is_string v = false) xs
            end) h.

(** * Properties *)

(** ** The store only grows *)

Lemma val_ok_mono h h' v : val_ok h v -> h `prefix_of` h' -> val_ok h' v.
Proof.
  destruct v; simpl; auto. intros Hl Hp. apply prefix_length in Hp. lia.
Qed.

Lemma obj_ok_mono h h' o : obj_ok h o -> h `prefix_of` h' -> obj_ok h' o.
Proof.
  intros Ho Hp. destruct o as [m|xs]; simpl in *.
  - intros k v Hk. apply (val_ok_mono h); [exact (Ho k v Hk)|done].
  - eapply Forall_impl; [exact Ho|]. intros v Hv. by apply (val_ok_mono h).
Qed.

Lemma heap_ok_lookup h l o : heap_ok h -> h !! l = Some o -> obj_ok h o.
Proof. intros Hh Hl. eapply Forall_lookup_1 in Hh; eauto. Qed.

Lemma heap_ok_alloc h o :
  heap_ok h -> obj_ok (h ++ [o]) o -> heap_ok (h ++ [o]).
Proof.
  intros Hh Ho. apply Forall_app. split.
  - eapply Forall_impl; eauto. intros o' Ho'.
    eapply obj_ok_mono; eauto. by apply prefix_app_r.
  - by apply Forall_singleton.
Qed.

Lemma lookup_grow (h h' : heap) l :
  l < length h -> h `prefix_of` h' -> h' !! l = h !! l.
Proof. intros Hl Hp. symmetry. by apply prefix_lookup_lt. Qed.

Lemma lookup_alloc (h : heap) o : (h ++ [o]) !! length h = Some o.
Proof. by rewrite lookup_app_r, Nat.sub_diag. Qed.

Lemma prefix_alloc (h : heap) o : h `prefix_of` h ++ [o].
Proof. by apply prefix_app_r. Qed.

Lemma enumerable_grow h h' v :
  val_ok h v -> h `prefix_of` h' -> enumerable h' v = enumerable h v.
Proof.
  destruct v; simpl; auto. intros Hl Hp. by rewrite (lookup_grow h h').
Qed.

Lemma length_of_grow h h' v :
  val_ok h v -> h `prefix_of` h' -> length_of h' v = length_of h v.
Proof.
  destruct v; simpl; auto. intros Hl Hp. by rewrite (lookup_grow h h').
Qed.

Lemma get_grow h h' v k :
  val_ok h v -> h `prefix_of` h' -> get h' v k = get h v k.
Proof.
  intros Hv Hp. unfold get.
  by rewrite (enumerable_grow h h'), (length_of_grow h h').
Qed.

(** ** Member access *)

Lemma truthy_not_nullish v : truthy v = true -> nullish v = false.
Proof. by destruct v. Qed.

Lemma get_total h v k : nullish v = false -> exists w, get h v k = Some w.
Proof.
  intros Hn. unfold get. rewrite Hn.
  destruct (length_of h v); [case_decide|]; eauto.
Qed.

Lemma get_nullish h v k : nullish v = true -> get h v k = None.
Proof. intros Hn. unfold get. by rewrite Hn. Qed.

Lemma key_of_index_not_length i : key_of_index i <> "length".
Proof.
  unfold key_of_index. intros E.
  assert (Hn : Nat.to_uint i <> Decimal.Nil).
  { intros Hi. apply (f_equal Nat.of_uint) in Hi.
    rewrite Unsigned.of_to in Hi. simpl in Hi. subst i. discriminate. }
  apply NilZero.usu in Hn. rewrite E in Hn. discriminate.
Qed.

Lemma index_props_length xs : index_props xs !! "length" = None.
Proof.
  unfold index_props. apply not_elem_of_list_to_map_1.
  intros Hin. apply list_elem_of_fmap in Hin as [[k v] [Hk Hin]].
  apply elem_of_lookup_imap_1 in Hin as (i & y & Hiy & _).
  simpl in Hk. inversion Hiy; subst. by eapply key_of_index_not_length.
Qed.

Lemma index_props_elem xs k w : index_props xs !! k = Some w -> w ∈ xs.
Proof.
  unfold index_props. intros Hk. apply elem_of_list_to_map_2 in Hk.
  apply elem_of_lookup_imap_1 in Hk as (i & y & Hiy & Hl).
  inversion Hiy; subst. eapply list_elem_of_lookup_2; eauto.
Qed.

Lemma chars_ok h s : Forall (val_ok h) (chars s).
Proof. induction s; simpl; constructor; simpl; auto. Qed.

Lemma enumerable_ok h v k w :
  heap_ok h -> enumerable h v !! k = Some w -> val_ok h w.
Proof.
  intros Hh. destruct v; simpl; try (rewrite lookup_empty; discriminate).
  - intros Hk. apply index_props_elem in Hk.
    eapply Forall_forall in Hk; [exact Hk|]. apply chars_ok.
  - destruct (h !! l) as [[m|xs]|] eqn:Hl;
      try (rewrite lookup_empty; discriminate).
    + intros Hk. exact (heap_ok_lookup _ _ _ Hh Hl k w Hk).
    + intros Hk. apply index_props_elem in Hk.
      pose proof (heap_ok_lookup _ _ _ Hh Hl) as Ho. simpl in Ho.
      eapply Forall_forall in Ho; eauto.
Qed.

Lemma get_ok h v k w : heap_ok h -> get h v k = Some w -> val_ok h w.
Proof.
  intros Hh. unfold get. destruct (nullish v); [discriminate|].
  assert (Hd : forall w', Some (default VUndefined (enumerable h v !! k)) = Some w'
                          -> val_ok h w').
  { intros w' [= <-]. destruct (enumerable h v !! k) eqn:Hk; simpl; auto.
    eapply enumerable_ok; eauto. }
  destruct (length_of h v); [case_decide|]; auto.
  by intros [= <-].
Qed.

(** A sibling property of a spread copy: [{...v, [k1]: x}[k]] for [k]
    other than [k1] is [v[k]], except that the copy of an array or string
    has no [length]. *)
Lemma get_spread h h' v l k1 x k w :
  h' !! l = Some (HObj (<[k1 := x]> (enumerable h v))) ->
  k <> k1 ->
  get h v k = Some w ->
  exists w', get h' (VRef l) k = Some w'
    /\ (w' = w \/ (w' = VUndefined /\ exists n, w = VNum n)).
Proof.
  intros Hl Hk. unfold get at 2. simpl. rewrite Hl.
  rewrite lookup_insert_ne by done.
  unfold get. destruct (nullish v); [discriminate|].
  destruct (length_of h v) as [n|] eqn:Hlen.
  - case_decide as Hkl.
    + intros [= <-]. eexists; split; [done|]. right. split; [|eauto].
      subst k. destruct v; simpl in *; try discriminate.
      * by rewrite index_props_length.
      * destruct (h !! l0) as [[?|?]|]; try discriminate.
        by rewrite index_props_length.
    + intros [= <-]. eauto.
  - intros [= <-]. eauto.
Qed.

(** ** The read, one step at a time *)

Lemma or_empty_truthy h v : truthy v = true -> or_empty h v = (h, v).
Proof. intros Ht. unfold or_empty. by rewrite Ht. Qed.

Lemma or_empty_falsy h v :
  truthy v = false -> or_empty h v = (h ++ [HObj ∅], VRef (length h)).
Proof. intros Ht. unfold or_empty. by rewrite Ht. Qed.

Lemma get_empty_object h l k :
  h !! l = Some (HObj ∅) -> get h (VRef l) k = Some VUndefined.
Proof. intros Hl. unfold get. simpl. by rewrite Hl, lookup_empty. Qed.

Lemma read_value_nil h root key d :
  read_value h root [] key d
  = (fun v => if nullish v then d else v) <$> get h root key.
Proof.
  unfold read_value, read. simpl. by destruct (get h root key).
Qed.

Lemma read_value_unfold h root segment rest key d :
  read_value h root (segment :: rest) key d
  = match get h root segment with
    | None => None
    | Some v =>
        read_value (or_empty h v).1 (or_empty h v).2 rest key d
    end.
Proof.
  unfold read_value, read. simpl. destruct (get h root segment); [|done].
  by destruct (or_empty h v).
Qed.

(** Below an empty object every read yields the default. *)
Lemma read_value_empty_object path : forall h l key d,
  h !! l = Some (HObj ∅) -> read_value h (VRef l) path key d = Some d.
Proof.
  induction path as [|segment rest IH]; intros h l key d Hl.
  - by rewrite read_value_nil, (get_empty_object _ _ _ Hl).
  - rewrite read_value_unfold, (get_empty_object _ _ _ Hl).
    rewrite or_empty_falsy by done. simpl. apply IH, lookup_alloc.
Qed.

Lemma read_value_cons h root segment rest key d w :
  get h root segment = Some w ->
  read_value h root (segment :: rest) key d
  = if truthy w then read_value h w rest key d else Some d.
Proof.
  intros Hg. rewrite read_value_unfold, Hg.
  destruct (truthy w) eqn:Ht.
  - by rewrite or_empty_truthy.
  - rewrite or_empty_falsy by done. simpl.
    apply read_value_empty_object, lookup_alloc.
Qed.

(** Numbers and booleans have no own properties: below them every read
    yields the default. *)
Lemma get_propless h v k :
  propless v = true -> truthy v = true -> get h v k = Some VUndefined.
Proof.
  destruct v as [| |b|n|s|l]; simpl; try discriminate.
  - intros _ _. unfold get. simpl. by rewrite lookup_empty.
  - intros _ _. unfold get. simpl. by rewrite lookup_empty.
  - by destruct s.
Qed.

Lemma read_value_propless h v path key d :
  propless v = true -> truthy v = true -> read_value h v path key d = Some d.
Proof.
  intros Hp Ht. destruct path as [|segment rest].
  - by rewrite read_value_nil, get_propless.
  - by rewrite (read_value_cons _ _ _ _ _ _ VUndefined)
      by (by apply get_propless).
Qed.

Lemma read_value_grow path : forall h h' root key d,
  heap_ok h -> val_ok h root -> h `prefix_of` h' ->
  read_value h' root path key d = read_value h root path key d.
Proof.
  induction path as [|segment rest IH]; intros h h' root key d Hh Hr Hp.
  - by rewrite !read_value_nil, (get_grow h h').
  - destruct (get h root segment) as [w|] eqn:Hg.
    + rewrite (read_value_cons h' _ _ _ _ _ w)
        by (by rewrite (get_grow h h')).
      rewrite (read_value_cons h _ _ _ _ _ w) by done.
      destruct (truthy w); [|done]. apply IH; auto. eapply get_ok; eauto.
    + by rewrite !read_value_unfold, (get_grow h h'), Hg.
Qed.

Lemma read_value_total path : forall h root key d,
  nullish root = false -> exists v, read_value h root path key d = Some v.
Proof.
  induction path as [|segment rest IH]; intros h root key d Hn.
  - rewrite read_value_nil. destruct (get_total h root key Hn) as [w ->].
    simpl. eauto.
  - destruct (get_total h root segment Hn) as [w Hw].
    rewrite (read_value_cons _ _ _ _ _ _ w) by done.
    destruct (truthy w) eqn:Ht; eauto using truthy_not_nullish.
Qed.

(** The loop leaves every object of the store as it was. *)
Lemma descend_grows path : forall h state h1 state1,
  descend h state path = Some (h1, state1) -> h `prefix_of` h1.
Proof.
  induction path as [|segment rest IH]; simpl; intros h state h1 state1.
  - by intros [= <- _].
  - destruct (get h state segment) as [v|]; [|done].
    unfold or_empty, alloc. destruct (truthy v); intros Hd.
    + eauto.
    + trans (h ++ [HObj ∅]); [apply prefix_alloc|]. eauto.
Qed.

Lemma read_grows h root path key d h1 v :
  read h root path key d = Some (h1, v) -> h `prefix_of` h1.
Proof.
  unfold read. destruct (descend h root path) as [[h2 state]|] eqn:Hd; [|done].
  destruct (get h2 state key); [|done]. intros [= <- _].
  eapply descend_grows; eauto.
Qed.

Lemma read_read_value h root path key d h1 v :
  read h root path key d = Some (h1, v) -> read_value h root path key d = Some v.
Proof. unfold read_value. by intros ->. Qed.

Lemma read_value_read h root path key d v :
  read_value h root path key d = Some v ->
  exists h1, read h root path key d = Some (h1, v).
Proof.
  unfold read_value. destruct (read h root path key d) as [[h1 v']|]; [|done].
  intros [= <-]. eauto.
Qed.

(** ** [setDeepValue], one level at a time *)

Lemma get_record h l m k :
  h !! l = Some (HObj m) -> get h (VRef l) k = Some (default VUndefined (m !! k)).
Proof. intros Hl. unfold get. simpl. by rewrite Hl. Qed.

Lemma or_empty_inv h v h1 child :
  or_empty h v = (h1, child) ->
  (truthy v = true /\ h1 = h /\ child = v)
  \/ (truthy v = false /\ h1 = h ++ [HObj ∅] /\ child = VRef (length h)).
Proof.
  unfold or_empty, alloc. destruct (truthy v); intros [= <- <-]; auto.
Qed.

Lemma or_empty_ok h v h1 child :
  or_empty h v = (h1, child) -> heap_ok h -> val_ok h v ->
  heap_ok h1 /\ val_ok h1 child /\ h `prefix_of` h1 /\ truthy child = true.
Proof.
  intros Ho Hh Hv. apply or_empty_inv in Ho as [(Ht & -> & ->)|(Ht & -> & ->)].
  - done.
  - split_and!; [|simpl; rewrite length_app; simpl; lia|apply prefix_alloc|done].
    apply heap_ok_alloc; [done|]. simpl. apply map_Forall_empty.
Qed.

Lemma setDeepValue_cons_inv h obj first rest key value h' r :
  setDeepValue h obj (first :: rest) key value = Some (h', r) ->
  exists v h1 child h2 sub,
    get h obj first = Some v
    /\ or_empty h v = (h1, child)
    /\ setDeepValue h1 child rest key value = Some (h2, sub)
    /\ h' = h2 ++ [HObj (<[first := sub]> (enumerable h obj))]
    /\ r = VRef (length h2).
Proof.
  simpl. destruct (get h obj first) as [v|]; [|done].
  destruct (or_empty h v) as [h1 child] eqn:Ho.
  destruct (setDeepValue h1 child rest key value) as [[h2 sub]|] eqn:Hs; [|done].
  unfold alloc. intros [= <- <-]. by exists v, h1, child, h2, sub.
Qed.

(** The write never throws on a container. *)
Lemma setDeepValue_total keys : forall h obj key value,
  nullish obj = false ->
  exists h' r, setDeepValue h obj keys key value = Some (h', r).
Proof.
  induction keys as [|first rest IH]; intros h obj key value Hn; simpl.
  - unfold alloc. eauto.
  - destruct (get_total h obj first Hn) as [v ->].
    destruct (or_empty h v) as [h1 child] eqn:Ho.
    assert (Hc : nullish child = false).
    { apply truthy_not_nullish.
      by apply or_empty_inv in Ho as [(? & _ & ->)|(_ & _ & ->)]. }
    destruct (IH h1 child key value Hc) as (h2 & sub & ->).
    unfold alloc. eauto.
Qed.

(** The result is a newly allocated plain object, and no object of the
    store before the write is touched. *)
Lemma setDeepValue_grows keys : forall h obj key value h' r,
  setDeepValue h obj keys key value = Some (h', r) ->
  h `prefix_of` h'
  /\ exists l m, r = VRef l /\ length h <= l /\ h' !! l = Some (HObj m).
Proof.
  induction keys as [|first rest IH]; intros h obj key value h' r.
  - simpl. unfold alloc. intros [= <- <-]. split; [apply prefix_alloc|].
    eexists _, _. split_and!; [done|done|apply lookup_alloc].
  - intros (v & h1 & child & h2 & sub & Hg & Ho & Hs & -> & ->)
      %setDeepValue_cons_inv.
    apply IH in Hs as [Hp _].
    assert (Hp1 : h `prefix_of` h1).
    { apply or_empty_inv in Ho as [(_ & -> & _)|(_ & -> & _)];
        [done|apply prefix_alloc]. }
    assert (Hp2 : h `prefix_of` h2) by (by trans h1).
    split; [trans h2; [done|apply prefix_alloc]|].
    eexists _, _. split_and!; [done|by apply prefix_length|apply lookup_alloc].
Qed.

Lemma spread_ok h h' obj k x :
  heap_ok h -> h `prefix_of` h' -> val_ok h' x ->
  obj_ok h' (HObj (<[k := x]> (enumerable h obj))).
Proof.
  intros Hh Hp Hx. simpl. apply map_Forall_insert_2; [done|].
  intros j w Hj. apply (val_ok_mono h); [|done]. eapply enumerable_ok; eauto.
Qed.

Lemma setDeepValue_ok keys : forall h obj key value h' r,
  heap_ok h -> val_ok h obj -> val_ok h value ->
  setDeepValue h obj keys key value = Some (h', r) ->
  heap_ok h' /\ val_ok h' r.
Proof.
  induction keys as [|first rest IH]; intros h obj key value h' r Hh Hobj Hv.
  - simpl. unfold alloc. intros [= <- <-]. split.
    + apply heap_ok_alloc; [done|]. apply spread_ok; [done|apply prefix_alloc|].
      apply (val_ok_mono h); [done|apply prefix_alloc].
    + simpl. rewrite length_app. simpl. lia.
  - intros (v & h1 & child & h2 & sub & Hg & Ho & Hs & -> & ->)
      %setDeepValue_cons_inv.
    pose proof (get_ok _ _ _ _ Hh Hg) as Hvok.
    destruct (or_empty_ok _ _ _ _ Ho Hh Hvok) as (Hh1 & Hc & Hp1 & _).
    pose proof (setDeepValue_grows _ _ _ _ _ _ _ Hs) as [Hp2 _].
    destruct (IH _ _ _ _ _ _ Hh1 Hc (val_ok_mono _ _ _ Hv Hp1) Hs) as [Hh2 Hsub].
    split.
    + apply heap_ok_alloc; [done|]. apply spread_ok; [done| |].
      * trans h2; [by trans h1|apply prefix_alloc].
      * apply (val_ok_mono h2); [done|apply prefix_alloc].
    + simpl. rewrite length_app. simpl. lia.
Qed.

(** One level of the recursion, with everything it preserves. *)
Lemma setDeepValue_cons_ok h obj first rest key value h' r :
  heap_ok h -> val_ok h obj -> val_ok h value ->
  setDeepValue h obj (first :: rest) key value = Some (h', r) ->
  exists v h1 child h2 l,
    get h obj first = Some v
    /\ or_empty h v = (h1, child)
    /\ setDeepValue h1 child rest key value = Some (h2, VRef l)
    /\ h' = h2 ++ [HObj (<[first := VRef l]> (enumerable h obj))]
    /\ r = VRef (length h2)
    /\ (heap_ok h1 /\ val_ok h1 child /\ val_ok h1 value /\ truthy child = true)
    /\ (heap_ok h2 /\ val_ok h2 (VRef l))
    /\ (h `prefix_of` h1 /\ h1 `prefix_of` h2).
Proof.
  intros Hh Hobj Hv
    (v & h1 & child & h2 & sub & Hg & Ho & Hs & -> & ->)%setDeepValue_cons_inv.
  pose proof (get_ok _ _ _ _ Hh Hg) as Hvok.
  destruct (or_empty_ok _ _ _ _ Ho Hh Hvok) as (Hh1 & Hc & Hp1 & Htc).
  pose proof (val_ok_mono _ _ _ Hv Hp1) as Hv1.
  destruct (setDeepValue_ok _ _ _ _ _ _ _ Hh1 Hc Hv1 Hs) as [Hh2 Hsub].
  destruct (setDeepValue_grows _ _ _ _ _ _ _ Hs) as [Hp2 (l & m & -> & _ & _)].
  by exists v, h1, child, h2, l.
Qed.

(** Reading through the key a new node was built for leads into the new
    child. *)
Lemma read_new_node h2 m k l rest key d :
  heap_ok h2 -> val_ok h2 (VRef l) ->
  read_value (h2 ++ [HObj (<[k := VRef l]> m)]) (VRef (length h2))
    (k :: rest) key d
  = read_value h2 (VRef l) rest key d.
Proof.
  intros Hh2 Hl.
  rewrite (read_value_cons _ _ _ _ _ _ (VRef l))
    by (by rewrite (get_record _ _ _ _ (lookup_alloc _ _)), lookup_insert_eq).
  simpl. apply read_value_grow; [done|done|apply prefix_alloc].
Qed.

(** Reading back what was written: the value itself, or the default when
    the value is [null] or [undefined]. *)
Lemma read_after_write keys : forall h obj key value d h' r,
  heap_ok h -> val_ok h obj -> val_ok h value ->
  setDeepValue h obj keys key value = Some (h', r) ->
  read_value h' r keys key d = Some (if nullish value then d else value).
Proof.
  induction keys as [|first rest IH]; intros h obj key value d h' r Hh Hobj Hv Hs.
  - simpl in Hs. unfold alloc in Hs. injection Hs as <- <-.
    rewrite read_value_nil, (get_record _ _ _ _ (lookup_alloc _ _)).
    by rewrite lookup_insert_eq.
  - apply setDeepValue_cons_ok in Hs
      as (v & h1 & child & h2 & l & Hg & Ho & Hs & -> & ->
          & (Hh1 & Hc & Hv1 & _) & (Hh2 & Hl) & _); [|done..].
    rewrite read_new_node by done.
    exact (IH _ _ _ _ d _ _ Hh1 Hc Hv1 Hs).
Qed.

(** ** Reads beside, below and off the written path *)

(** Reading through a sibling key of a spread copy gives what it gave
    through the original: the one property a copy drops, the [length] of
    an array or string, is a number, below which every read is the
    default anyway. *)
Lemma sibling_read h h' v l k1 x k rest key d :
  heap_ok h -> val_ok h v -> h `prefix_of` h' -> nullish v = false ->
  h' !! l = Some (HObj (<[k1 := x]> (enumerable h v))) ->
  k <> k1 ->
  read_value h' (VRef l) (k :: rest) key d = read_value h v (k :: rest) key d.
Proof.
  intros Hh Hv Hp Hn Hl Hk.
  destruct (get_total h v k Hn) as [w Hw].
  destruct (get_spread _ _ _ _ _ _ _ _ Hl Hk Hw) as (w' & Hw' & Hrel).
  rewrite (read_value_cons _ _ _ _ _ _ _ Hw'), (read_value_cons _ _ _ _ _ _ _ Hw).
  destruct Hrel as [->|[-> [n ->]]].
  - destruct (truthy w); [|done].
    apply read_value_grow; [done| |done]. eapply get_ok; eauto.
  - simpl. destruct (negb (n =? 0)%Z) eqn:Hz; [|done].
    by rewrite read_value_propless.
Qed.

Lemma sibling_key h h' v l k1 x k d :
  nullish v = false ->
  h' !! l = Some (HObj (<[k1 := x]> (enumerable h v))) ->
  k <> k1 ->
  read_value h v [] k d = Some d ->
  read_value h' (VRef l) [] k d = Some d.
Proof.
  intros Hn Hl Hk. rewrite !read_value_nil.
  destruct (get_total h v k Hn) as [w Hw].
  destruct (get_spread _ _ _ _ _ _ _ _ Hl Hk Hw) as (w' & Hw' & Hrel).
  rewrite Hw, Hw'. simpl. by destruct Hrel as [->|[-> _]].
Qed.

Lemma diverge_cons_same (x : string) p q :
  diverge (x :: p) (x :: q) -> diverge p q.
Proof.
  intros [H1 H2]. split; intros Hp; [apply H1|apply H2]; by apply prefix_cons.
Qed.


(** A read that yielded the default keeps yielding it after a write,
    unless the write went through the very key that is read, or the read
    runs through a written value that has properties of its own. *)
Lemma default_kept p1 : forall h obj k1 value h' r p key d,
  heap_ok h -> val_ok h obj -> val_ok h value ->
  ~ (p ++ [key]) `prefix_of` (p1 ++ [k1]) ->
  propless value = true \/ ~ (p1 ++ [k1]) `prefix_of` (p ++ [key]) ->
  read_value h obj p key d = Some d ->
  setDeepValue h obj p1 k1 value = Some (h', r) ->
  read_value h' r p key d = Some d.
Proof.
  induction p1 as [|first rest1 IH];
    intros h obj k1 value h' r p key d Hh Hobj Hv Hnp Hpl Hold Hs;
    (assert (Hn : nullish obj = false);
     [destruct (nullish obj) eqn:E; [exfalso|done];
      destruct p; [rewrite read_value_nil in Hold
                  |rewrite read_value_unfold in Hold];
      by rewrite get_nullish in Hold|]).
  - simpl in Hs. unfold alloc in Hs. injection Hs as <- <-.
    destruct p as [|x rest].
    + eapply sibling_key; eauto using lookup_alloc.
      intros ->. by apply Hnp.
    + destruct (decide (x = k1)) as [->|Hx].
      * rewrite (read_value_cons _ _ _ _ _ _ value)
          by (by rewrite (get_record _ _ _ _ (lookup_alloc _ _)), lookup_insert_eq).
        destruct (truthy value) eqn:Ht; [|done].
        destruct Hpl as [Hpl|Hne]; [by apply read_value_propless|].
        destruct Hne. simpl. apply prefix_cons, prefix_nil.
      * rewrite <- Hold.
        eapply sibling_read; eauto using lookup_alloc, prefix_alloc.
  - apply setDeepValue_cons_ok in Hs
      as (v & h1 & child & h2 & l & Hg & Ho & Hs & -> & ->
          & (Hh1 & Hc & Hv1 & Htc) & (Hh2 & Hl) & (Hp1 & Hp2)); [|done..].
    assert (Hp : h `prefix_of` h2 ++ [HObj (<[first := VRef l]> (enumerable h obj))]).
    { trans h2; [by trans h1|apply prefix_alloc]. }
    destruct p as [|x rest].
    + eapply sibling_key; eauto using lookup_alloc.
      intros ->. apply Hnp. simpl. apply prefix_cons, prefix_nil.
    + destruct (decide (x = first)) as [->|Hx].
      * rewrite read_new_node by done.
        rewrite (read_value_cons _ _ _ _ _ _ _ Hg) in Hold.
        apply (IH h1 child k1 value h2 (VRef l) rest key d Hh1 Hc Hv1);
          [| | |done].
        -- intros Hpre. apply Hnp. simpl. by apply prefix_cons.
        -- destruct Hpl as [Hpl|Hne]; [by left|right].
           intros Hpre. apply Hne. simpl. by apply prefix_cons.
        -- apply or_empty_inv in Ho as [(Ht & -> & ->)|(Ht & -> & ->)].
           ++ by rewrite Ht in Hold.
           ++ apply read_value_empty_object, lookup_alloc.
      * rewrite <- Hold.
        eapply sibling_read; eauto using lookup_alloc.
Qed.

(** Below the written leaf a read sees the written value only. *)
Lemma read_below_write p : forall h obj key value h' r rest key' d,
  heap_ok h -> val_ok h obj -> val_ok h value ->
  setDeepValue h obj p key value = Some (h', r) ->
  read_value h' r (p ++ key :: rest) key' d
  = if truthy value then read_value h value rest key' d else Some d.
Proof.
  induction p as [|first rest1 IH];
    intros h obj key value h' r rest key' d Hh Hobj Hv Hs.
  - simpl in Hs. unfold alloc in Hs. injection Hs as <- <-. simpl.
    rewrite (read_value_cons _ _ _ _ _ _ value)
      by (by rewrite (get_record _ _ _ _ (lookup_alloc _ _)), lookup_insert_eq).
    destruct (truthy value); [|done].
    apply read_value_grow; [done|done|apply prefix_alloc].
  - apply setDeepValue_cons_ok in Hs
      as (v & h1 & child & h2 & l & Hg & Ho & Hs & -> & ->
          & (Hh1 & Hc & Hv1 & _) & (Hh2 & Hl) & (Hp1 & _)); [|done..].
    simpl app. rewrite read_new_node by done.
    rewrite (IH _ _ _ _ _ _ rest key' d Hh1 Hc Hv1 Hs).
    destruct (truthy value); [|done].
    by apply read_value_grow.
Qed.

(** ** Subtrees *)

Lemma subtree_cons_inv h v k q w :
  subtree h v (k :: q) = Some w ->
  exists u, enumerable h v !! k = Some u /\ subtree h u q = Some w.
Proof.
  cbn [subtree]. destruct (enumerable h v !! k) as [u|] eqn:Hk; [|done].
  intros Hu. by exists u.
Qed.

Lemma enumerable_lookup_grow h h' v k u :
  enumerable h v !! k = Some u -> h `prefix_of` h' ->
  enumerable h' v !! k = Some u.
Proof.
  destruct v as [| | | | |l]; simpl; try done.
  destruct (h !! l) as [o|] eqn:Hl; [|by rewrite lookup_empty].
  intros Hk Hp. by rewrite (prefix_lookup_Some _ _ _ _ Hl Hp).
Qed.

(** An enumerable property is what member access yields, and only truthy
    values have one. *)
Lemma enumerable_get h v k u :
  enumerable h v !! k = Some u -> get h v k = Some u /\ truthy v = true.
Proof.
  intros Hk.
  assert (Ht : truthy v = true).
  { destruct v as [| | | |s|l]; simpl in *;
      try (by rewrite lookup_empty in Hk); [|done].
    destruct s; [|done]. unfold index_props in Hk. simpl in Hk.
    by rewrite lookup_empty in Hk. }
  split; [|done]. unfold get. rewrite (truthy_not_nullish _ Ht).
  destruct (length_of h v) as [n|] eqn:Hlen; [|by rewrite Hk].
  case_decide as Hkl; [|by rewrite Hk]. subst k. exfalso.
  destruct v as [| | | |s|l]; simpl in *; try done.
  - by rewrite index_props_length in Hk.
  - destruct (h !! l) as [[m|xs]|]; try done.
    by rewrite index_props_length in Hk.
Qed.

Lemma subtree_grow q : forall h h' v w,
  subtree h v q = Some w -> h `prefix_of` h' -> subtree h' v q = Some w.
Proof.
  induction q as [|k q' IH]; intros h h' v w; [done|].
  intros (u & Hk & Hu)%subtree_cons_inv Hp.
  cbn [subtree]. rewrite (enumerable_lookup_grow _ _ _ _ _ Hk Hp). eauto.
Qed.

Lemma subtree_step h l m k u q :
  h !! l = Some (HObj m) -> m !! k = Some u ->
  subtree h (VRef l) (k :: q) = subtree h u q.
Proof. intros Hl Hk. cbn [subtree enumerable]. by rewrite Hl, Hk. Qed.

(** Off the written path, the new container holds the very values the
    old one held. *)
Lemma off_path_shared p : forall h obj key value h' r q w,
  setDeepValue h obj p key value = Some (h', r) ->
  diverge q (p ++ [key]) ->
  subtree h obj q = Some w ->
  subtree h' r q = Some w.
Proof.
  induction p as [|first rest IH]; intros h obj key value h' r q w Hs Hdiv Hq.
  - simpl in Hs. unfold alloc in Hs. injection Hs as <- <-.
    destruct q as [|k q'].
    { destruct Hdiv as [H1 _]. destruct H1. apply prefix_nil. }
    apply subtree_cons_inv in Hq as (u & Hk & Hu).
    assert (k <> key).
    { intros ->. destruct Hdiv as [_ H2]. apply H2. simpl.
      apply prefix_cons, prefix_nil. }
    rewrite (subtree_step _ _ _ _ u _ (lookup_alloc _ _)).
    + eapply subtree_grow; eauto. apply prefix_alloc.
    + by rewrite lookup_insert_ne.
  - apply setDeepValue_cons_inv in Hs
      as (v & h1 & child & h2 & sub & Hg & Ho & Hs & -> & ->).
    destruct (setDeepValue_grows _ _ _ _ _ _ _ Hs) as [Hp2 _].
    destruct q as [|k q'].
    { destruct Hdiv as [H1 _]. destruct H1. apply prefix_nil. }
    apply subtree_cons_inv in Hq as (u & Hk & Hu).
    destruct (decide (k = first)) as [->|Hne].
    + destruct (enumerable_get _ _ _ _ Hk) as [Hg' _].
      rewrite Hg' in Hg. injection Hg as <-.
      apply diverge_cons_same in Hdiv.
      destruct q' as [|k' q''].
      { destruct Hdiv as [H1 _]. destruct H1. apply prefix_nil. }
      pose proof Hu as Hu'.
      apply subtree_cons_inv in Hu' as (uu & Hkk & _).
      destruct (enumerable_get _ _ _ _ Hkk) as [_ Ht].
      rewrite or_empty_truthy in Ho by done. injection Ho as <- <-.
      rewrite (subtree_step _ _ _ _ sub _ (lookup_alloc _ _))
        by (by rewrite lookup_insert_eq).
      eapply subtree_grow; [|apply prefix_alloc].
      eapply IH; eauto.
    + assert (Hp1 : h `prefix_of` h1).
      { apply or_empty_inv in Ho as [(_ & -> & _)|(_ & -> & _)];
          [done|apply prefix_alloc]. }
      rewrite (subtree_step _ _ _ _ u _ (lookup_alloc _ _)).
      * eapply subtree_grow; eauto.
        trans h2; [by trans h1|apply prefix_alloc].
      * by rewrite lookup_insert_ne.
Qed.

(** Every node along the written path is a newly allocated plain
    object. *)
Lemma path_nodes_fresh p : forall h obj key value h' r i,
  setDeepValue h obj p key value = Some (h', r) ->
  i <= length p ->
  exists l m, subtree h' r (take i p) = Some (VRef l)
    /\ length h <= l /\ h' !! l = Some (HObj m).
Proof.
  induction p as [|first rest IH]; intros h obj key value h' r i Hs Hi.
  - destruct (setDeepValue_grows _ _ _ _ _ _ _ Hs) as [_ (l & m & -> & Hl & Hm)].
    rewrite take_nil. simpl. eauto.
  - destruct i as [|i].
    + destruct (setDeepValue_grows _ _ _ _ _ _ _ Hs) as [_ (l & m & -> & Hl & Hm)].
      simpl. eauto.
    + apply setDeepValue_cons_inv in Hs
        as (v & h1 & child & h2 & sub & Hg & Ho & Hs & -> & ->).
      simpl in Hi. apply Nat.succ_le_mono in Hi.
      destruct (IH _ _ _ _ _ _ i Hs Hi) as (l & m & Hsub & Hl & Hm).
      assert (Hp1 : h `prefix_of` h1).
      { apply or_empty_inv in Ho as [(_ & -> & _)|(_ & -> & _)];
          [done|apply prefix_alloc]. }
      exists l, m. split_and!.
      * rewrite firstn_cons.
        rewrite (subtree_step _ _ _ _ sub _ (lookup_alloc _ _))
          by (by rewrite lookup_insert_eq).
        eapply subtree_grow; eauto. apply prefix_alloc.
      * apply prefix_length in Hp1. lia.
      * eapply prefix_lookup_Some; eauto. apply prefix_alloc.
Qed.

Lemma written_subtree p : forall h obj key value h' r,
  setDeepValue h obj p key value = Some (h', r) ->
  subtree h' r (p ++ [key]) = Some value.
Proof.
  induction p as [|first rest IH]; intros h obj key value h' r Hs.
  - simpl in Hs. unfold alloc in Hs. injection Hs as <- <-. simpl app.
    by rewrite (subtree_step _ _ _ _ value _ (lookup_alloc _ _))
      by (by rewrite lookup_insert_eq).
  - apply setDeepValue_cons_inv in Hs
      as (v & h1 & child & h2 & sub & Hg & Ho & Hs & -> & ->).
    simpl app.
    rewrite (subtree_step _ _ _ _ sub _ (lookup_alloc _ _))
      by (by rewrite lookup_insert_eq).
    eapply subtree_grow; [eauto|apply prefix_alloc].
Qed.

(** ** The loop and the write function *)

Lemma read_value_app p1 : forall h state h1 state1 p2 key d,
  descend h state p1 = Some (h1, state1) ->
  read_value h state (p1 ++ p2) key d = read_value h1 state1 p2 key d.
Proof.
  induction p1 as [|segment rest IH]; intros h state h1 state1 p2 key d.
  - simpl. by intros [= <- <-].
  - simpl. rewrite read_value_unfold.
    destruct (get h state segment) as [v|]; [|done].
    destruct (or_empty h v) as [h2 state2]. simpl. apply IH.
Qed.

Lemma descend_ok path : forall h state h1 state1,
  heap_ok h -> val_ok h state ->
  descend h state path = Some (h1, state1) ->
  heap_ok h1 /\ val_ok h1 state1.
Proof.
  induction path as [|segment rest IH]; intros h state h1 state1 Hh Hs; simpl.
  - by intros [= <- <-].
  - destruct (get h state segment) as [v|] eqn:Hg; [|done].
    destruct (or_empty h v) as [h2 state2] eqn:Ho.
    destruct (or_empty_ok _ _ _ _ Ho Hh (get_ok _ _ _ _ Hh Hg)) as (? & ? & _).
    by apply IH.
Qed.

Lemma read_ok h root path key d h1 v :
  heap_ok h -> val_ok h root ->
  read h root path key d = Some (h1, v) ->
  h `prefix_of` h1 /\ heap_ok h1 /\ (val_ok h d -> val_ok h1 v).
Proof.
  intros Hh Hr Hread. pose proof (read_grows _ _ _ _ _ _ _ Hread) as Hp.
  split; [done|]. unfold read in Hread.
  destruct (descend h root path) as [[h2 state]|] eqn:Hdesc; [|done].
  destruct (descend_ok _ _ _ _ _ Hh Hr Hdesc) as [Hh2 Hst].
  destruct (get h2 state key) as [w|] eqn:Hg; [|done].
  injection Hread as <- <-. split; [done|]. intros Hd.
  destruct (nullish w); [by apply (val_ok_mono h)|by eapply get_ok].
Qed.

Lemma is_record_ok h v : is_record h v -> val_ok h v /\ nullish v = false.
Proof.
  intros (l & m & -> & Hl). split; [|done]. simpl.
  by eapply lookup_lt_Some.
Qed.

Lemma is_record_grow h h' v :
  is_record h v -> h `prefix_of` h' -> is_record h' v.
Proof.
  intros (l & m & -> & Hl) Hp. exists l, m. split; [done|].
  by eapply prefix_lookup_Some.
Qed.

(** What one call of the setter does, whatever the new value is computed
    to be. *)
Lemma write_steps s path key d u h1 cur h2 newValue :
  store_ok s ->
  read (st_heap s) (st_root s) path key d = Some (h1, cur) ->
  match u with UFun f => f h1 cur | UValue v => (h1, v) end = (h2, newValue) ->
  st_heap s `prefix_of` h2 -> heap_ok h2 -> val_ok h2 newValue ->
  exists s', write s path key d u = Some s'
    /\ store_ok s'
    /\ st_heap s `prefix_of` st_heap s'
    /\ setDeepValue h2 (st_root s) path key newValue
       = Some (st_heap s', st_root s')
    /\ forall d', read_value (st_heap s') (st_root s') path key d'
         = Some (if nullish newValue then d' else newValue).
Proof.
  intros [Hh Hrec] Hread Hu Hp Hh2 Hnv.
  pose proof (is_record_grow _ _ _ Hrec Hp) as Hrec2.
  destruct (is_record_ok _ _ Hrec2) as [Hr2 Hn].
  destruct (setDeepValue_total path h2 (st_root s) key newValue Hn)
    as (h3 & r & Hs).
  exists {| st_heap := h3; st_root := r |}. unfold write.
  rewrite Hread, Hu, Hs. simpl.
  destruct (setDeepValue_ok _ _ _ _ _ _ _ Hh2 Hr2 Hnv Hs) as [Hh3 Hr3].
  destruct (setDeepValue_grows _ _ _ _ _ _ _ Hs) as [Hp3 (l & m & -> & _ & Hl)].
  split_and!; [done|split; [done|by exists l, m]|by trans h2|done|].
  intros d'. exact (read_after_write _ _ _ _ _ d' _ _ Hh2 Hr2 Hnv Hs).
Qed.

Lemma write_value_steps s path key d v :
  store_ok s -> val_ok (st_heap s) v ->
  exists h1 s', write s path key d (UValue v) = Some s'
    /\ store_ok s'
    /\ st_heap s `prefix_of` h1 /\ heap_ok h1
    /\ setDeepValue h1 (st_root s) path key v = Some (st_heap s', st_root s').
Proof.
  intros Hs Hv. pose proof Hs as [Hh Hrec].
  destruct (is_record_ok _ _ Hrec) as [Hr Hn].
  destruct (read_value_total path (st_heap s) (st_root s) key d Hn) as [cur Hc].
  apply read_value_read in Hc as [h1 Hread].
  destruct (read_ok _ _ _ _ _ _ _ Hh Hr Hread) as (Hp & Hh1 & _).
  destruct (write_steps s path key d (UValue v) h1 cur h1 v Hs Hread eq_refl
              Hp Hh1 (val_ok_mono _ _ _ Hv Hp)) as (s' & Hw & Hok & _ & Hset & _).
  by exists h1, s'.
Qed.

Lemma write_updater_steps s path key d f cur :
  store_ok s -> val_ok (st_heap s) d -> updater_ok f ->
  read_value (st_heap s) (st_root s) path key d = Some cur ->
  exists h1 s',
    read (st_heap s) (st_root s) path key d = Some (h1, cur)
    /\ write s path key d (UFun f) = Some s'
    /\ store_ok s'
    /\ st_heap s `prefix_of` st_heap s'
    /\ forall d', read_value (st_heap s') (st_root s') path key d'
         = Some (if nullish (f h1 cur).2 then d' else (f h1 cur).2).
Proof.
  intros Hs Hd Hf Hc. pose proof Hs as [Hh Hrec].
  destruct (is_record_ok _ _ Hrec) as [Hr Hn].
  apply read_value_read in Hc as [h1 Hread].
  destruct (read_ok _ _ _ _ _ _ _ Hh Hr Hread) as (Hp & Hh1 & Hcur).
  destruct (Hf h1 cur Hh1 (Hcur Hd)) as (Hp2 & Hh2 & Hnv).
  destruct (f h1 cur) as [h2 nv] eqn:Hfe. simpl in *.
  destruct (write_steps s path key d (UFun f) h1 cur h2 nv Hs Hread Hfe)
    as (s' & Hw & Hok & Hp' & _ & Hrd); [by trans h1|done|done|].
  exists h1, s'. split_and!; try done. by rewrite Hfe.
Qed.

Lemma plus_one_ok : updater_ok plus_one.
Proof. intros h v Hh Hv. by destruct v as [| |[]| | |]. Qed.

(** Up to [2^53] in magnitude the sum is exact. *)
Lemma double_round_exact m :
  (- max_exact <= m <= max_exact)%Z -> double_round m = m.
Proof.
  intros Hm. unfold double_round.
  destruct (Z.abs m <=? max_exact)%Z eqn:E; [done|].
  apply Z.leb_gt in E. lia.
Qed.

Lemma plus_one_exact h n :
  (- max_exact <= n + 1 <= max_exact)%Z ->
  plus_one h (VNum n) = (h, VNum (n + 1)).
Proof. intros Hn. simpl. by rewrite double_round_exact. Qed.

Lemma propless_ok h v : propless v = true -> val_ok h v.
Proof. by destruct v. Qed.

(** A sequence of writes keeps a read at its default, as long as no
    write goes through the key that is read and the read does not run
    through a written value with properties of its own. *)
Lemma run_keeps_default ws : forall s p k d,
  store_ok s ->
  Forall (fun w => val_ok (st_heap s) (w_value w)) ws ->
  Forall (fun w => ~ (p ++ [k]) `prefix_of` full_path w
                   /\ (propless (w_value w) = true
                       \/ ~ full_path w `prefix_of` (p ++ [k]))) ws ->
  read_value (st_heap s) (st_root s) p k d = Some d ->
  exists s', run_writes s ws = Some s'
    /\ store_ok s'
    /\ read_value (st_heap s') (st_root s') p k d = Some d.
Proof.
  induction ws as [|w ws IH]; intros s p k d Hs Hok Hnp Hold; simpl.
  - by exists s.
  - apply Forall_cons in Hok as [Hokw Hok].
    apply Forall_cons in Hnp as [[Hnpw Hplw] Hnp].
    destruct (write_value_steps s (w_path w) (w_key w) (w_default w) (w_value w)
                Hs Hokw)
      as (h1 & s1 & -> & Hs1 & Hp & Hh1 & Hset).
    destruct Hs as [Hh Hrec]. destruct (is_record_ok _ _ Hrec) as [Hr _].
    assert (Hp1 : st_heap s `prefix_of` st_heap s1).
    { trans h1; [done|]. by eapply setDeepValue_grows. }
    apply IH; [done| |done|].
    + eapply Forall_impl; [exact Hok|]. intros w' Hw'.
      by apply (val_ok_mono (st_heap s)).
    + eapply (default_kept (w_path w) h1 (st_root s) (w_key w) (w_value w));
        [done|by apply (val_ok_mono (st_heap s))
        |by apply (val_ok_mono (st_heap s))|exact Hnpw|exact Hplw| |exact Hset].
      by rewrite (read_value_grow _ (st_heap s)).
Qed.

(** * Running the model *)

(** [setDeepValue({}, ["a","b"], "count", 1)]: two empty objects stand in
    for the missing levels, then the three new nodes are built from the
    leaf up. *)
Example setDeepValue_on_empty :
  setDeepValue [HObj ∅] (VRef 0) ["a"; "b"] "count" (VNum 1)
  = Some ([HObj ∅; HObj ∅; HObj ∅;
           HObj {["count" := VNum 1]};
           HObj {["b" := VRef 3]};
           HObj {["a" := VRef 4]}], VRef 5).
Proof. reflexivity. Qed.

(** A number in the way is replaced by a new object; a string in the way
    is spread into one, which keeps its characters. *)
Example setDeepValue_through_number :
  setDeepValue [HObj {["a" := VNum 5]}] (VRef 0) ["a"] "k" (VNum 1)
  = Some ([HObj {["a" := VNum 5]};
           HObj {["k" := VNum 1]};
           HObj {["a" := VRef 1]}], VRef 2).
Proof. reflexivity. Qed.

Example setDeepValue_through_string :
  setDeepValue [HObj {["a" := VStr "xy"]}] (VRef 0) ["a"] "k" (VNum 1)
  = Some ([HObj {["a" := VStr "xy"]};
           HObj (<["k" := VNum 1]> (<["0" := VStr "x"]> {["1" := VStr "y"]}));
           HObj {["a" := VRef 1]}], VRef 2).
Proof. by vm_compute. Qed.

(** Member access on an array: its elements and its [length]. *)
Example get_array :
  get [HArr [VNum 7; VNum 8]] (VRef 0) "1" = Some (VNum 8)
  /\ get [HArr [VNum 7; VNum 8]] (VRef 0) "length" = Some (VNum 2)
  /\ get [HArr [VNum 7; VNum 8]] (VRef 0) "2" = Some VUndefined.
Proof. by vm_compute. Qed.

(** Reads on the sample container. *)
Example read_sample :
  read_value sample_heap (VRef 0) ["a"; "b"] "count" (VNum 0) = Some (VNum 7)
  /\ read_value sample_heap (VRef 0) ["a"; "x"] "count" (VNum 0) = Some (VNum 0)
  /\ read_value sample_heap (VRef 0) ["n"] "count" (VNum 0) = Some (VNum 0)
  /\ read_value sample_heap (VRef 0) [] "a" (VNum 0) = Some (VRef 1).
Proof. by vm_compute. Qed.

(** * The claims *)

(** C1 (as stated): a write of [V] followed by a read returns [V] for every
    value.  It fails for [V = null]: on the empty container, after
    [setDeepValue({}, [], "k", null)] the read of ["k"] with default [0]
    does not return [null] (it returns the default, because of [??]). *)
Lemma roundtrip_null_counterexample :
  ~ (exists h' r,
        setDeepValue [HObj ∅] (VRef 0) [] "k" VNull = Some (h', r)
        /\ read_value h' r [] "k" (VNum 0) = Some VNull).
Proof.
  intros (h' & r & Hs & Hr). vm_compute in Hs. injection Hs as <- <-.
  vm_compute in Hr. discriminate.
Qed.

(** C1 (amended): for every container, path [p] of plain segments, key [k],
    value [v] and default [d], the write of [v] at [(p, k)] succeeds and the
    read of [(p, k)] after it returns [v], unless [v] is [null] or
    [undefined], in which case the read returns its default [d].  (The key
    itself may be any string: the write makes it an own property.) *)
Theorem write_read_roundtrip h root p k v d :
  heap_ok h -> is_record h root -> val_ok h v ->
  plain_path p = true ->
  exists h' r,
    setDeepValue h root p k v = Some (h', r)
    /\ read_value h' r p k d = Some (if nullish v then d else v).
Proof.
  intros Hh Hrec Hv _. destruct (is_record_ok _ _ Hrec) as [Hr Hn].
  destruct (setDeepValue_total p h root k v Hn) as (h' & r & Hs).
  exists h', r. split; [done|]. by eapply read_after_write.
Qed.

Lemma write_read_roundtrip_witness :
  exists h' r,
    setDeepValue sample_heap (VRef 0) ["a"; "b"] "count" (VNum 1) = Some (h', r)
    /\ read_value h' r ["a"; "b"] "count" (VNum 0) = Some (VNum 1).
Proof.
  apply (write_read_roundtrip sample_heap (VRef 0) ["a"; "b"] "count"
           (VNum 1) (VNum 0)).
  - apply (bool_decide_unpack _). vm_compute. exact I.
  - eexists _, _. split; reflexivity.
  - exact I.
  - reflexivity.
Defined.

(** C3: whenever the write of [v] at [(p, k)] returns, no object of the
    store before the write has changed, and at every path [q] that diverges
    from the written path [p ++ [k]] the new container holds the very value
    (for an object: the very location) that the old container held there;
    and on a container the write does return when the segments of [p] are
    plain. *)
Theorem structural_sharing h root p k v :
  (forall h' r,
      setDeepValue h root p k v = Some (h', r) ->
      (forall l o, h !! l = Some o -> h' !! l = Some o)
      /\ (forall q w, diverge q (p ++ [k]) ->
            subtree h root q = Some w -> subtree h' r q = Some w))
  /\ (is_record h root -> plain_path p = true ->
      exists h' r, setDeepValue h root p k v = Some (h', r)).
Proof.
  split.
  - intros h' r Hs.
    destruct (setDeepValue_grows _ _ _ _ _ _ _ Hs) as [Hp _]. split.
    + intros l o Hl. by eapply prefix_lookup_Some.
    + intros q w Hdiv Hq. by eapply off_path_shared.
  - intros Hrec _. destruct (is_record_ok _ _ Hrec) as [_ Hn].
    apply (setDeepValue_total p h root k v Hn).
Qed.

Lemma structural_sharing_witness :
  exists h' r,
    setDeepValue sample_heap (VRef 0) ["a"; "c"] "count" (VNum 1) = Some (h', r)
    /\ h' !! 2 = Some (HObj {["count" := VNum 7]})
    /\ subtree h' r ["a"; "b"] = Some (VRef 2)
    /\ subtree h' r ["s"] = Some (VStr "xy").
Proof.
  destruct (structural_sharing sample_heap (VRef 0) ["a"; "c"] "count" (VNum 1))
    as [Hshare Hret].
  destruct Hret as (h' & r & Hs).
  - eexists _, _. split; reflexivity.
  - reflexivity.
  - destruct (Hshare h' r Hs) as [Hold Hoff].
    exists h', r. split_and!.
    + exact Hs.
    + by apply Hold.
    + apply Hoff; [|reflexivity]. split; intros [x Hx]; discriminate.
    + apply Hoff; [|reflexivity]. split; intros [x Hx]; discriminate.
Defined.

(** C4 (as stated): after a write through a segment that holds a
    non-container value, the read returns the written value.  It fails
    for the value [null]: on [{ a: 5 }], after the write of [null] at
    [(["a"], "k")], the read with default [0] does not return [null]. *)
Lemma collision_null_counterexample :
  ~ (exists h' r,
        setDeepValue [HObj {["a" := VNum 5]}] (VRef 0) ["a"] "k" VNull
        = Some (h', r)
        /\ read_value h' r ["a"] "k" (VNum 0) = Some VNull).
Proof.
  intros (h' & r & Hs & Hr). vm_compute in Hs. injection Hs as <- <-.
  vm_compute in Hr. discriminate.
Qed.

(** C4 (amended): for a path [p] of plain segments the write never throws,
    whatever the container holds under these segments; every node along
    [p] in the new container, the root included, is a newly allocated plain
    object; and the read of [(p, k)] after it returns the written value, or
    the read's default when that value is [null] or [undefined]. *)
Theorem write_total h root p k v :
  heap_ok h -> is_record h root -> val_ok h v ->
  plain_path p = true ->
  exists h' r,
    setDeepValue h root p k v = Some (h', r)
    /\ (forall i, i <= length p ->
          exists l m, subtree h' r (take i p) = Some (VRef l)
            /\ length h <= l /\ h' !! l = Some (HObj m))
    /\ (forall d, read_value h' r p k d = Some (if nullish v then d else v)).
Proof.
  intros Hh Hrec Hv _. destruct (is_record_ok _ _ Hrec) as [Hr Hn].
  destruct (setDeepValue_total p h root k v Hn) as (h' & r & Hs).
  exists h', r. split_and!; [done| |].
  - intros i Hi. by eapply path_nodes_fresh.
  - intros d. by eapply read_after_write.
Qed.

Lemma write_total_witness :
  exists h' r,
    setDeepValue sample_heap (VRef 0) ["n"; "s"] "k" (VNum 1) = Some (h', r)
    /\ (forall i, i <= length ["n"; "s"] ->
          exists l m, subtree h' r (take i ["n"; "s"]) = Some (VRef l)
            /\ length sample_heap <= l /\ h' !! l = Some (HObj m))
    /\ (forall d, read_value h' r ["n"; "s"] "k" d = Some (VNum 1)).
Proof.
  apply (write_total sample_heap (VRef 0) ["n"; "s"] "k" (VNum 1)).
  - apply (bool_decide_unpack _). vm_compute. exact I.
  - eexists _, _. split; reflexivity.
  - exact I.
  - reflexivity.
Defined.



(** C10 (as stated): after the write at [(p, k)], every read below
    [p ++ [k]] returns the default.  It fails when the written value is
    itself a container: after the write of [{ x: { y: 1 } }] at [([], "k")]
    on the empty container, the read of [(["k"; "x"], "y")] with default
    [0] does not return [0] (it returns [1]). *)
Lemma read_below_container_counterexample :
  ~ (exists h' r,
        setDeepValue [HObj ∅; HObj {["y" := VNum 1]}; HObj {["x" := VRef 1]}]
          (VRef 0) [] "k" (VRef 2) = Some (h', r)
        /\ read_value h' r ["k"; "x"] "y" (VNum 0) = Some (VNum 0)).
Proof.
  intros (h' & r & Hs & Hr). vm_compute in Hs. injection Hs as <- <-.
  vm_compute in Hr. discriminate.
Qed.

(** C10 (amended): after the write of [v] at [(p, k)], for a path [p] of
    plain segments, what the container holds at the full path [p ++ [k]] is
    [v] itself, and a read at any path that extends [p ++ [k]] by plain
    segments, of a plain key, depends on [v] alone, not on what was stored
    there before: it is the read of the remaining path inside [v].  In
    particular it returns the default when [v] is [null], [undefined], a
    boolean, a number or the empty string. *)
Theorem write_replaces_below h root p k v :
  heap_ok h -> is_record h root -> val_ok h v ->
  plain_path p = true ->
  exists h' r,
    setDeepValue h root p k v = Some (h', r)
    /\ subtree h' r (p ++ [k]) = Some v
    /\ (forall rest k' d,
          plain_path rest = true -> plain_key k' = true ->
          read_value h' r (p ++ k :: rest) k' d
          = if truthy v then read_value h v rest k' d else Some d)
    /\ (propless v = true ->
        forall rest k' d,
          plain_path rest = true -> plain_key k' = true ->
          read_value h' r (p ++ k :: rest) k' d = Some d).
Proof.
  intros Hh Hrec Hv _. destruct (is_record_ok _ _ Hrec) as [Hr Hn].
  destruct (setDeepValue_total p h root k v Hn) as (h' & r & Hs).
  exists h', r.
  assert (Hbelow : forall rest k' d,
            read_value h' r (p ++ k :: rest) k' d
            = if truthy v then read_value h v rest k' d else Some d).
  { intros rest k' d.
    exact (read_below_write p h root k v h' r rest k' d Hh Hr Hv Hs). }
  split_and!; [done|by eapply written_subtree|by intros; apply Hbelow|].
  intros Hpl rest k' d _ _. rewrite Hbelow.
  destruct (truthy v) eqn:Ht; [|done]. by apply read_value_propless.
Qed.

Lemma write_replaces_below_witness :
  exists h' r,
    setDeepValue sample_heap (VRef 0) [] "a" (VNum 3) = Some (h', r)
    /\ subtree h' r ([] ++ ["a"]) = Some (VNum 3)
    /\ (forall rest k' d,
          plain_path rest = true -> plain_key k' = true ->
          read_value h' r ([] ++ "a" :: rest) k' d
          = if truthy (VNum 3) then read_value sample_heap (VNum 3) rest k' d
            else Some d)
    /\ (propless (VNum 3) = true ->
        forall rest k' d,
          plain_path rest = true -> plain_key k' = true ->
          read_value h' r ([] ++ "a" :: rest) k' d = Some d).
Proof.
  apply (write_replaces_below sample_heap (VRef 0) [] "a" (VNum 3)).
  - apply (bool_decide_unpack _). vm_compute. exact I.
  - eexists _, _. split; reflexivity.
  - exact I.
  - reflexivity.
Defined.

(** C5 (as stated): two calls with [(c) => c + 1] from an unwritten
    [(p, k)] with default [d] leave [d + 2] stored.  It fails for
    [d = 2^53]: numbers are doubles, [2^53 + 1] is rounded to [2^53], and
    after the two calls on the empty container the read of [([], "count")]
    is still [2^53]. *)
Lemma increment_rounding_counterexample :
  exists s1 s2,
    write empty_store [] "count" (VNum max_exact) (UFun plus_one) = Some s1
    /\ write s1 [] "count" (VNum max_exact) (UFun plus_one) = Some s2
    /\ read_value (st_heap s2) (st_root s2) [] "count" (VNum max_exact)
       = Some (VNum max_exact)
    /\ read_value (st_heap s2) (st_root s2) [] "count" (VNum max_exact)
       <> Some (VNum (max_exact + 2)).
Proof.
  eexists _, _. split; [reflexivity|]. split; [reflexivity|].
  split; [reflexivity|]. vm_compute. discriminate.
Qed.

(** C5 (amended): for a path [p] of plain segments and a plain key [k], an
    updater [f] given to the setter is applied to the value that the read
    returns on the container as it is at that call (the default when
    nothing is stored), and the result is what the container holds
    afterwards; in particular two calls with [(c) => c + 1] on a [(p, k)]
    that reads as its default [n] leave [n + 2] stored, when [n] and
    [n + 2] are at most [2^53] in magnitude. *)
Theorem updater_semantics s p k :
  store_ok s -> plain_path p = true -> plain_key k = true ->
  (forall d f cur,
      val_ok (st_heap s) d -> updater_ok f ->
      read_value (st_heap s) (st_root s) p k d = Some cur ->
      exists h1 s',
        read (st_heap s) (st_root s) p k d = Some (h1, cur)
        /\ write s p k d (UFun f) = Some s'
        /\ forall d', read_value (st_heap s') (st_root s') p k d'
             = Some (if nullish (f h1 cur).2 then d' else (f h1 cur).2))
  /\ (forall n,
        (- max_exact <= n)%Z -> (n + 2 <= max_exact)%Z ->
        read_value (st_heap s) (st_root s) p k (VNum n) = Some (VNum n) ->
        exists s1 s2,
          write s p k (VNum n) (UFun plus_one) = Some s1
          /\ write s1 p k (VNum n) (UFun plus_one) = Some s2
          /\ subtree (st_heap s2) (st_root s2) (p ++ [k]) = Some (VNum (n + 2))
          /\ forall d', read_value (st_heap s2) (st_root s2) p k d'
               = Some (VNum (n + 2))).
Proof.
  intros Hs _ _. split.
  - intros d f cur Hd Hf Hcur.
    destruct (write_updater_steps s p k d f cur Hs Hd Hf Hcur)
      as (h1 & s' & Hread & Hw & _ & _ & Hrd).
    by exists h1, s'.
  - intros n Hlo Hhi Hn.
    destruct (write_updater_steps s p k (VNum n) plus_one (VNum n) Hs I
                plus_one_ok Hn) as (h1 & s1 & _ & Hw1 & Hs1 & _ & Hrd1).
    rewrite plus_one_exact in Hrd1 by lia. simpl in Hrd1.
    destruct (write_updater_steps s1 p k (VNum n) plus_one (VNum (n + 1)) Hs1 I
                plus_one_ok (Hrd1 _)) as (h2 & s2 & Hread2 & Hw2 & _ & _ & Hrd2).
    rewrite plus_one_exact in Hrd2 by lia. simpl in Hrd2.
    exists s1, s2. split_and!; [done|done| |].
    + unfold write in Hw2. rewrite Hread2, plus_one_exact in Hw2 by lia.
      destruct (setDeepValue h2 (st_root s1) p k (VNum (n + 1 + 1)))
        as [[h3 r]|] eqn:Hset; [|done].
      injection Hw2 as <-. simpl.
      rewrite (written_subtree _ _ _ _ _ _ _ Hset). do 2 f_equal. lia.
    + intros d'. rewrite Hrd2. do 2 f_equal. lia.
Qed.

Lemma updater_semantics_witness :
  (exists h1 s',
      read sample_heap (VRef 0) ["a"; "c"] "count" (VNum 0) = Some (h1, VNum 0)
      /\ write sample_store ["a"; "c"] "count" (VNum 0) (UFun plus_one) = Some s'
      /\ forall d', read_value (st_heap s') (st_root s') ["a"; "c"] "count" d'
           = Some (VNum 1))
  /\ (exists s1 s2,
        write sample_store ["a"; "c"] "count" (VNum 0) (UFun plus_one) = Some s1
        /\ write s1 ["a"; "c"] "count" (VNum 0) (UFun plus_one) = Some s2
        /\ subtree (st_heap s2) (st_root s2) (["a"; "c"] ++ ["count"])
           = Some (VNum 2)
        /\ forall d', read_value (st_heap s2) (st_root s2) ["a"; "c"] "count" d'
             = Some (VNum 2)).
Proof.
  assert (Hok : store_ok sample_store).
  { split; [apply (bool_decide_unpack _); vm_compute; exact I|].
    eexists _, _. split; reflexivity. }
  destruct (updater_semantics sample_store ["a"; "c"] "count" Hok
              eq_refl eq_refl) as [H1 H2].
  split.
  - exact (H1 (VNum 0) plus_one (VNum 0) I plus_one_ok eq_refl).
  - apply (H2 0%Z); [by vm_compute|by vm_compute|reflexivity].
Defined.

(** C7 (as stated): when an intermediate lookup yields a non-container
    value the read returns the default.  It fails for a string: on
    [{ a: "xy" }] the lookup of ["a"] yields the string ["xy"], and the read
    of [(["a"], "length")] with default [0] does not return [0] (it returns
    the string's length, [2]). *)
Lemma read_through_string_counterexample :
  get [HObj {["a" := VStr "xy"]}] (VRef 0) "a" = Some (VStr "xy")
  /\ read_value [HObj {["a" := VStr "xy"]}] (VRef 0) ["a"] "length" (VNum 0)
     <> Some (VNum 0).
Proof. split; [reflexivity|]. vm_compute. discriminate. Qed.

(** C7 (amended): on every container the read of a plain key at a path of
    plain segments returns a value without throwing and leaves every object
    of the store as it was; it descends by successive key lookup, and when
    an intermediate lookup misses or yields [undefined], [null], a boolean,
    a number or the empty string, the read returns the default; a
    non-empty string or an array is looked into like a container, through
    its index properties and [length]; at the final node the read returns
    the default when the key is absent (or holds [null] or [undefined]),
    and the stored value otherwise. *)
Theorem read_degrades h root :
  is_record h root ->
  (forall p k d,
      plain_path p = true -> plain_key k = true ->
      exists h1 v,
        read h root p k d = Some (h1, v)
        /\ forall l o, h !! l = Some o -> h1 !! l = Some o)
  /\ (forall p1 segment rest k d h1 state w,
        plain_path (p1 ++ segment :: rest) = true -> plain_key k = true ->
        descend h root p1 = Some (h1, state) ->
        get h1 state segment = Some w ->
        propless w = true ->
        read_value h root (p1 ++ segment :: rest) k d = Some d)
  /\ (forall p1 segment rest k d h1 state w,
        plain_path (p1 ++ segment :: rest) = true -> plain_key k = true ->
        descend h root p1 = Some (h1, state) ->
        get h1 state segment = Some w ->
        truthy w = true ->
        read_value h root (p1 ++ segment :: rest) k d
        = read_value h1 w rest k d)
  /\ (forall p k d h1 state w,
        plain_path p = true -> plain_key k = true ->
        descend h root p = Some (h1, state) ->
        get h1 state k = Some w ->
        read_value h root p k d = Some (if nullish w then d else w)).
Proof.
  intros Hrec. destruct (is_record_ok _ _ Hrec) as [_ Hn]. split_and!.
  - intros p k d _ _.
    destruct (read_value_total p h root k d Hn) as [v Hv].
    apply read_value_read in Hv as [h1 Hread]. exists h1, v. split; [done|].
    intros l o Hl. eapply prefix_lookup_Some; [done|]. by eapply read_grows.
  - intros p1 segment rest k d h1 state w _ _ Hd Hg Hpl.
    rewrite (read_value_app _ _ _ _ _ _ _ _ Hd).
    rewrite (read_value_cons _ _ _ _ _ _ _ Hg).
    destruct (truthy w) eqn:Ht; [|done]. by apply read_value_propless.
  - intros p1 segment rest k d h1 state w _ _ Hd Hg Ht.
    rewrite (read_value_app _ _ _ _ _ _ _ _ Hd).
    by rewrite (read_value_cons _ _ _ _ _ _ _ Hg), Ht.
  - intros p k d h1 state w _ _ Hd Hg.
    rewrite <- (app_nil_r p), (read_value_app _ _ _ _ _ _ _ _ Hd).
    by rewrite read_value_nil, Hg.
Qed.

Lemma read_degrades_witness :
  (exists h1 v,
      read sample_heap (VRef 0) ["n"; "x"] "k" (VNum 0) = Some (h1, v)
      /\ forall l o, sample_heap !! l = Some o -> h1 !! l = Some o)
  /\ read_value sample_heap (VRef 0) ([] ++ "n" :: ["x"]) "k" (VNum 0)
     = Some (VNum 0)
  /\ read_value sample_heap (VRef 0) (["a"] ++ "b" :: []) "count" (VNum 0)
     = read_value sample_heap (VRef 2) [] "count" (VNum 0)
  /\ read_value sample_heap (VRef 0) ["a"; "b"] "missing" (VNum 0)
     = Some (VNum 0).
Proof.
  assert (Hrec : is_record sample_heap (VRef 0)).
  { eexists _, _. split; reflexivity. }
  destruct (read_degrades sample_heap (VRef 0) Hrec) as (H1 & H2 & H3 & H4).
  split_and!.
  - by apply H1.
  - exact (H2 [] "n" ["x"] "k" (VNum 0) sample_heap (VRef 0) (VNum 5)
             eq_refl eq_refl eq_refl eq_refl eq_refl).
  - exact (H3 ["a"] "b" [] "count" (VNum 0) sample_heap (VRef 1) (VRef 2)
             eq_refl eq_refl eq_refl eq_refl eq_refl).
  - exact (H4 ["a"; "b"] "missing" (VNum 0) sample_heap (VRef 2) VUndefined
             eq_refl eq_refl eq_refl eq_refl).
Defined.

(** C8 (as stated): after [write(["a","b"], "count", 1)] on the empty
    container every [(p, k)] that was not written reads as the default.  It
    fails for a key that is a segment of the written path: nothing was
    written at [([], "a")], yet its read with default [0] does not return
    [0] (it returns the namespace object). *)
Lemma unwritten_segment_counterexample :
  exists s,
    run_writes empty_store [scenario_op] = Some s
    /\ read_value (st_heap s) (st_root s) [] "a" (VNum 0) <> Some (VNum 0).
Proof.
  eexists. split; [reflexivity|]. vm_compute. discriminate.
Qed.

(** C8 (amended): starting from the empty root container, after any
    sequence of writes at paths of plain segments, [read(p, k, default)]
    returns the default for every [(p, k)], a path of plain segments and a
    plain key, whose full path [p ++ [k]] is not a prefix of the full path
    of a performed write, and does not extend the full path of a write that
    stored a value with properties of its own (a non-empty string, an
    array, a container); concretely, after [write(["a","b"], "count", 1)]
    on the empty container the container is [{ a: { b: { count: 1 } } }],
    and the reads of [(["a","b"], "count")], [(["a","c"], "count")] and
    [([], "count")] with default [0] return [1], [0] and [0]. *)
Theorem unwritten_reads_default :
  (forall s0 ws p k d,
      heap_ok (st_heap s0) -> empty_root s0 ->
      plain_path p = true -> plain_key k = true ->
      Forall (fun w => plain_path (w_path w) = true) ws ->
      Forall (fun w => val_ok (st_heap s0) (w_value w)) ws ->
      Forall (fun w => ~ (p ++ [k]) `prefix_of` full_path w
                       /\ (propless (w_value w) = true
                           \/ ~ full_path w `prefix_of` (p ++ [k]))) ws ->
      exists s, run_writes s0 ws = Some s
        /\ read_value (st_heap s) (st_root s) p k d = Some d)
  /\ (exists s lr la lb,
        run_writes empty_store [scenario_op] = Some s
        /\ st_root s = VRef lr
        /\ st_heap s !! lr = Some (HObj {["a" := VRef la]})
        /\ st_heap s !! la = Some (HObj {["b" := VRef lb]})
        /\ st_heap s !! lb = Some (HObj {["count" := VNum 1]})
        /\ read_value (st_heap s) (st_root s) ["a"; "b"] "count" (VNum 0)
           = Some (VNum 1)
        /\ read_value (st_heap s) (st_root s) ["a"; "c"] "count" (VNum 0)
           = Some (VNum 0)
        /\ read_value (st_heap s) (st_root s) [] "count" (VNum 0)
           = Some (VNum 0)).
Proof.
  split.
  - intros s0 ws p k d Hh (l & Hroot & Hl) _ _ _ Hok Hnp.
    destruct (run_keeps_default ws s0 p k d) as (s & Hrun & _ & Hrd);
      [|done|done| |by exists s].
    + split; [done|]. exists l, ∅. by rewrite Hroot.
    + rewrite Hroot. by apply read_value_empty_object.
  - eexists _, 7, 6, 5. split; [reflexivity|]. by vm_compute.
Qed.

Lemma unwritten_reads_default_witness :
  exists s, run_writes empty_store [scenario_op] = Some s
    /\ read_value (st_heap s) (st_root s) ["a"; "c"] "count" (VNum 0)
       = Some (VNum 0).
Proof.
  apply (proj1 unwritten_reads_default empty_store [scenario_op] ["a"; "c"]
           "count" (VNum 0)).
  - apply (bool_decide_unpack _). vm_compute. exact I.
  - exists 0. split; reflexivity.
  - reflexivity.
  - reflexivity.
  - repeat constructor.
  - repeat constructor.
  - repeat constructor. intros [x Hx]. discriminate.
Defined.

(** ** Root binding selection *)

Lemma provider_keeps_nonempty ctx props :
  namespace ctx <> [] ->
  namespace (StateNamespaceProvider ctx props) <> []
  /\ namespaceAtom (StateNamespaceProvider ctx props) = namespaceAtom ctx.
Proof.
  intros Hne. unfold StateNamespaceProvider. simpl. split.
  - destruct (p_namespace props) as [ns|]; [|done].
    destruct (String.eqb ns ""); [done|]. by destruct (namespace ctx).
  - destruct (namespace ctx) as [|x xs]; [done|]. simpl.
    by destruct (p_rootAtom props).
Qed.

Lemma nest_inherits scopes : forall ctx,
  namespace ctx <> [] -> namespaceAtom (nest ctx scopes) = namespaceAtom ctx.
Proof.
  unfold nest.
  induction scopes as [|props rest IH]; intros ctx Hne; simpl; [done|].
  destruct (provider_keeps_nonempty ctx props Hne) as [Hne' Hat].
  by rewrite IH.
Qed.

(** C2 (as stated): a scope's declared container is taken exactly when no
    ancestor scope established one.  It fails for two nested providers that
    both declare a container and introduce no segment: the ancestor
    established container [1], yet the inner scope is bound to its own
    container [2]. *)
Lemma rebinding_counterexample :
  namespaceAtom
    (nest (default_context 0)
       [ {| p_namespace := None; p_rootAtom := Some 1 |};
         {| p_namespace := None; p_rootAtom := Some 2 |} ]) = 2
  /\ Some (namespaceAtom
             (nest (default_context 0)
                [ {| p_namespace := None; p_rootAtom := Some 1 |};
                  {| p_namespace := None; p_rootAtom := Some 2 |} ]))
     <> spec_selection None
          [ {| p_namespace := None; p_rootAtom := Some 1 |};
            {| p_namespace := None; p_rootAtom := Some 2 |} ].
Proof. split; [reflexivity|]. vm_compute. discriminate. Qed.

(** C2 (amended): a scope that declares a backing container is bound to it
    if and only if the path inherited from its ancestors is empty (no
    ancestor scope introduced a segment); otherwise, and when it declares
    none, the parent's container is inherited unchanged; and below a scope
    whose own path is not empty every descendant inherits that scope's
    container. *)
Theorem root_binding_selection parent props scopes :
  (forall rootAtom, p_rootAtom props = Some rootAtom ->
     namespace parent = [] ->
     namespaceAtom (StateNamespaceProvider parent props) = rootAtom)
  /\ (forall rootAtom, p_rootAtom props = Some rootAtom ->
        namespace parent <> [] ->
        namespaceAtom (StateNamespaceProvider parent props)
        = namespaceAtom parent)
  /\ (p_rootAtom props = None ->
      namespaceAtom (StateNamespaceProvider parent props) = namespaceAtom parent)
  /\ (namespace (StateNamespaceProvider parent props) <> [] ->
      namespaceAtom (nest (StateNamespaceProvider parent props) scopes)
      = namespaceAtom (StateNamespaceProvider parent props)).
Proof.
  split_and!.
  - intros a Ha Hnil. unfold StateNamespaceProvider. simpl. by rewrite Ha, Hnil.
  - intros a Ha Hne. unfold StateNamespaceProvider. simpl. rewrite Ha.
    by destruct (namespace parent).
  - intros Hnone. unfold StateNamespaceProvider. simpl. by rewrite Hnone.
  - apply nest_inherits.
Qed.

Lemma root_binding_selection_witness :
  namespaceAtom
    (StateNamespaceProvider (default_context 0)
       {| p_namespace := Some "app"; p_rootAtom := Some 1 |}) = 1
  /\ namespaceAtom
       (StateNamespaceProvider
          {| namespace := ["app"]; namespaceAtom := 1 |}
          {| p_namespace := Some "child"; p_rootAtom := Some 2 |}) = 1
  /\ namespaceAtom
       (StateNamespaceProvider (default_context 0)
          {| p_namespace := Some "app"; p_rootAtom := None |}) = 0
  /\ namespaceAtom
       (nest (StateNamespaceProvider (default_context 0)
                {| p_namespace := Some "app"; p_rootAtom := Some 1 |})
          [ {| p_namespace := None; p_rootAtom := Some 2 |} ]) = 1.
Proof.
  split_and!.
  - exact (proj1 (root_binding_selection (default_context 0)
             {| p_namespace := Some "app"; p_rootAtom := Some 1 |} [])
             1 eq_refl eq_refl).
  - apply (proj1 (proj2 (root_binding_selection
             {| namespace := ["app"]; namespaceAtom := 1 |}
             {| p_namespace := Some "child"; p_rootAtom := Some 2 |} []))
             2 eq_refl).
    discriminate.
  - exact (proj1 (proj2 (proj2 (root_binding_selection (default_context 0)
             {| p_namespace := Some "app"; p_rootAtom := None |} [])))
             eq_refl).
  - apply (proj2 (proj2 (proj2 (root_binding_selection (default_context 0)
             {| p_namespace := Some "app"; p_rootAtom := Some 1 |}
             [ {| p_namespace := None; p_rootAtom := Some 2 |} ])))).
    discriminate.
Defined.

(** ** Path equality *)

Lemma compare_loop_spec a b n : forall i,
  compare_loop a b i n = true
  <-> forall j, i <= j < i + n -> a !! j = b !! j.
Proof.
  induction n as [|n IH]; intros i; simpl.
  - split; [intros _ j Hj; lia|done].
  - case_decide as Hi.
    + split; [done|]. intros H. destruct Hi. apply H. lia.
    + rewrite IH. split; intros H j Hj.
      * destruct (decide (j = i)) as [->|Hne]; [done|]. apply H. lia.
      * apply H. lia.
Qed.

(** C9: [compareStringArrays(a, b)] is true if and only if [a] and [b] have
    the same length and equal elements at every index, that is, if and only
    if they are equal element-wise; and [useMemoEqual] with this comparator
    returns an array whose elements are those of the path passed in. *)
Theorem compareStringArrays_structural :
  (forall a b,
      compareStringArrays a b = true
      <-> length a = length b /\ forall i, i < length a -> a !! i = b !! i)
  /\ (forall a b, compareStringArrays a b = true <-> a = b)
  /\ (forall arrays ref path,
        exists l, memo_path arrays ref path = JSome l
          /\ path_elems arrays l = path_elems arrays path).
Proof.
  assert (Hidx : forall a b,
             compareStringArrays a b = true
             <-> length a = length b /\ forall i, i < length a -> a !! i = b !! i).
  { intros a b. unfold compareStringArrays. case_decide as Hlen.
    - split; [done|]. by intros [? _].
    - rewrite compare_loop_spec. split.
      + intros H. split; [done|]. intros i Hi. apply H. lia.
      + intros [_ H] j Hj. apply H. lia. }
  assert (Heq : forall a b, compareStringArrays a b = true <-> a = b).
  { intros a b. rewrite Hidx. split.
    - intros [Hlen H]. apply list_eq. intros i.
      destruct (decide (i < length a)) as [Hi|Hi]; [by apply H|].
      rewrite !lookup_ge_None_2; [done|lia|lia].
    - by intros ->. }
  split_and!; [done|done|].
  intros arrays ref path. unfold memo_path, useMemoEqual.
  destruct ref as [[| |c]|]; simpl.
  - by exists path.
  - by exists path.
  - destruct (Nat.eqb path c) eqn:Hsame; simpl.
    + apply Nat.eqb_eq in Hsame as ->. by exists c.
    + destruct (compare_paths arrays path c) eqn:Hcmp.
      * exists c. split; [done|]. symmetry. by apply Heq.
      * by exists path.
  - rewrite Nat.eqb_refl. by exists path.
Qed.

(** * Further properties of the module *)

(** ** Paths under nested providers *)

Lemma provider_namespace ctx props :
  namespace (StateNamespaceProvider ctx props) = namespace ctx ++ segment_of props.
Proof.
  unfold StateNamespaceProvider, segment_of. simpl.
  destruct (p_namespace props) as [ns|]; [|by rewrite app_nil_r].
  destruct (String.eqb ns ""); [by rewrite app_nil_r|done].
Qed.

(** X1: the path at the bottom of a chain of nested providers is the path
    above the chain followed by the non-empty [namespace] props of the
    chain, outermost first; a provider without [namespace], or with the
    empty string, adds nothing. *)
Theorem nested_namespace_path scopes : forall ctx,
  namespace (nest ctx scopes)
  = namespace ctx ++ concat (map segment_of scopes).
Proof.
  unfold nest.
  induction scopes as [|props rest IH]; intros ctx; simpl.
  - by rewrite app_nil_r.
  - by rewrite IH, provider_namespace, <- app_assoc.
Qed.

(** X2: nested providers never invent a container: the storage atom at the
    bottom of a chain is the one above the chain or the [rootAtom] of one of
    the chain's providers; when no provider of the chain passes a
    [rootAtom], it is the one above the chain. *)
Theorem nested_atom_provenance scopes : forall ctx,
  (namespaceAtom (nest ctx scopes) = namespaceAtom ctx
   \/ exists props, props ∈ scopes
        /\ p_rootAtom props = Some (namespaceAtom (nest ctx scopes)))
  /\ (Forall (fun props => p_rootAtom props = None) scopes ->
      namespaceAtom (nest ctx scopes) = namespaceAtom ctx).
Proof.
  unfold nest.
  induction scopes as [|props rest IH]; intros ctx; simpl.
  - split; [by left|done].
  - destruct (IH (StateNamespaceProvider ctx props)) as [Hprov Hnone]. split.
    + destruct Hprov as [Heq|(props' & Hin & Hdecl)].
      * rewrite Heq.
        assert (Hat : namespaceAtom (StateNamespaceProvider ctx props)
                      = match p_rootAtom props with
                        | Some a =>
                            if (length (namespace ctx) =? 0)%nat then a
                            else namespaceAtom ctx
                        | None => namespaceAtom ctx
                        end) by reflexivity.
        rewrite Hat.
        destruct (p_rootAtom props) as [a|] eqn:Ha; [|by left].
        destruct (length (namespace ctx) =? 0)%nat; [|by left].
        right. exists props. split; [apply list_elem_of_here|done].
      * right. exists props'. split; [by apply list_elem_of_further|done].
    + intros Hall. apply Forall_cons in Hall as [Hp Hall].
      rewrite (Hnone Hall). unfold StateNamespaceProvider. simpl.
      by rewrite Hp.
Qed.

Lemma nested_atom_provenance_witness :
  namespaceAtom
    (nest (StateNamespaceProvider (default_context 0)
             {| p_namespace := None; p_rootAtom := Some 1 |})
       [ {| p_namespace := Some "main"; p_rootAtom := None |};
         {| p_namespace := Some "primary"; p_rootAtom := None |} ]) = 1.
Proof.
  apply (proj2 (nested_atom_provenance
           [ {| p_namespace := Some "main"; p_rootAtom := None |};
             {| p_namespace := Some "primary"; p_rootAtom := None |} ]
           (StateNamespaceProvider (default_context 0)
              {| p_namespace := None; p_rootAtom := Some 1 |}))).
  repeat constructor.
Defined.

(** X3: a hook under one more provider with a non-empty [namespace] and no
    [rootAtom] addresses the same path of the same container as a hook in
    the parent that passes [useStateNamespace([namespace])]; and passing
    [useStateNamespace([])] is the same as passing [null]. *)
Theorem provider_or_additional_path ctx seg :
  seg <> "" ->
  let child :=
    StateNamespaceProvider ctx {| p_namespace := Some seg; p_rootAtom := None |} in
  hook_path None child = hook_path (Some (useStateNamespace ctx [seg])) ctx
  /\ namespaceAtom child = namespaceAtom ctx
  /\ hook_path (Some (useStateNamespace ctx [])) ctx = hook_path None ctx.
Proof.
  intros Hseg. simpl. unfold useStateNamespace. rewrite app_nil_r.
  split; [|done]. destruct (String.eqb seg "") eqn:E; [|done].
  by apply String.eqb_eq in E.
Qed.

Lemma provider_or_additional_path_witness :
  hook_path None
    (StateNamespaceProvider (default_context 0)
       {| p_namespace := Some "custom"; p_rootAtom := None |})
  = hook_path (Some (useStateNamespace (default_context 0) ["custom"]))
      (default_context 0)
  /\ namespaceAtom
       (StateNamespaceProvider (default_context 0)
          {| p_namespace := Some "custom"; p_rootAtom := None |})
     = namespaceAtom (default_context 0)
  /\ hook_path (Some (useStateNamespace (default_context 0) []))
       (default_context 0)
     = hook_path None (default_context 0).
Proof.
  apply (provider_or_additional_path (default_context 0) "custom").
  discriminate.
Defined.

(** ** The debugger's view *)

Lemma descend_app p : forall h state q,
  descend h state (p ++ q)
  = match descend h state p with
    | Some (h1, state1) => descend h1 state1 q
    | None => None
    end.
Proof.
  induction p as [|segment rest IH]; intros h state q; simpl; [done|].
  destruct (get h state segment) as [v|]; [|done].
  destruct (or_empty h v) as [h1 state1]. apply IH.
Qed.

Lemma descend_truthy p : forall h state,
  truthy state = true ->
  exists h1 state1,
    descend h state p = Some (h1, state1)
    /\ truthy state1 = true /\ h `prefix_of` h1.
Proof.
  induction p as [|segment rest IH]; intros h state Ht; simpl.
  - by exists h, state.
  - destruct (get_total h state segment (truthy_not_nullish _ Ht)) as [v ->].
    destruct (or_empty h v) as [h1 state1] eqn:Ho.
    assert (truthy state1 = true /\ h `prefix_of` h1) as [Ht1 Hp].
    { apply or_empty_inv in Ho as [(? & -> & ->)|(_ & -> & ->)];
        [done|split; [done|apply prefix_alloc]]. }
    destruct (IH h1 state1 Ht1) as (h2 & state2 & Hd & Ht2 & Hp2).
    exists h2, state2. split_and!; [done|done|by trans h1].
Qed.

Lemma descend_empty_object p : forall h l,
  h !! l = Some (HObj ∅) ->
  exists h1 l1, descend h (VRef l) p = Some (h1, VRef l1)
    /\ h1 !! l1 = Some (HObj ∅).
Proof.
  induction p as [|segment rest IH]; intros h l Hl; simpl.
  - by exists h, l.
  - rewrite (get_empty_object _ _ _ Hl), or_empty_falsy by done.
    apply IH, lookup_alloc.
Qed.

Lemma subtree_app p : forall h v q,
  subtree h v (p ++ q)
  = match subtree h v p with
    | Some w => subtree h w q
    | None => None
    end.
Proof.
  induction p as [|k rest IH]; intros h v q; simpl; [done|].
  destruct (enumerable h v !! k); [apply IH|done].
Qed.

(** Along a path of truthy enumerable properties the loop allocates
    nothing and ends on the subtree. *)
Lemma descend_subtree p : forall h v w,
  subtree h v p = Some w -> truthy w = true -> descend h v p = Some (h, w).
Proof.
  induction p as [|k rest IH]; intros h v w Hsub Ht.
  - simpl in *. by injection Hsub as ->.
  - apply subtree_cons_inv in Hsub as (u & Hk & Hu).
    destruct (enumerable_get _ _ _ _ Hk) as [Hg _].
    assert (Htu : truthy u = true).
    { destruct rest as [|k' rest'].
      - simpl in Hu. by injection Hu as ->.
      - apply subtree_cons_inv in Hu as (u' & Hk' & _).
        by destruct (enumerable_get _ _ _ _ Hk'). }
    simpl. rewrite Hg, or_empty_truthy by done. by apply IH.
Qed.

(** X4: on a container [getCurrentState] never throws, for any path of
    plain segments and whatever the container holds along it; what it
    returns is never [undefined], [null] or another falsy value; and it
    leaves every object of the store as it was. *)
Theorem getCurrentState_total h root path :
  is_record h root ->
  plain_path path = true ->
  exists h1 state,
    getCurrentState h root path = Some (h1, state)
    /\ truthy state = true
    /\ forall l o, h !! l = Some o -> h1 !! l = Some o.
Proof.
  intros (l & m & -> & Hl) _.
  destruct (descend_truthy path h (VRef l) eq_refl) as (h1 & state & Hd & Ht & Hp).
  exists h1, state. split_and!; [done|done|].
  intros l' o Hl'. by eapply prefix_lookup_Some.
Qed.

Lemma getCurrentState_total_witness :
  exists h1 state,
    getCurrentState sample_heap (VRef 0) ["n"; "x"; "y"] = Some (h1, state)
    /\ truthy state = true
    /\ forall l o, sample_heap !! l = Some o -> h1 !! l = Some o.
Proof.
  apply (getCurrentState_total sample_heap (VRef 0) ["n"; "x"; "y"]).
  - eexists _, _. split; reflexivity.
  - reflexivity.
Defined.

(** X5: along a path of plain segments, when the lookup of a segment
    misses, or yields a falsy value, the state shown for that namespace and
    for every namespace below it is an empty object. *)
Theorem getCurrentState_missing h root p1 segment rest h1 state w :
  plain_path (p1 ++ segment :: rest) = true ->
  getCurrentState h root p1 = Some (h1, state) ->
  get h1 state segment = Some w ->
  truthy w = false ->
  exists h2 l,
    getCurrentState h root (p1 ++ segment :: rest) = Some (h2, VRef l)
    /\ h2 !! l = Some (HObj ∅).
Proof.
  unfold getCurrentState. intros _ Hd Hg Ht.
  rewrite descend_app, Hd. simpl. rewrite Hg, or_empty_falsy by done.
  apply descend_empty_object, lookup_alloc.
Qed.

Lemma getCurrentState_missing_witness :
  exists h2 l,
    getCurrentState sample_heap (VRef 0) (["a"] ++ "missing" :: ["deeper"])
    = Some (h2, VRef l)
    /\ h2 !! l = Some (HObj ∅).
Proof.
  apply (getCurrentState_missing sample_heap (VRef 0) ["a"] "missing"
           ["deeper"] sample_heap (VRef 1) VUndefined); reflexivity.
Defined.

(** X6: after the write of [v] at [(p, k)], for a path [p] of plain
    segments, the state shown for the namespace [p] is a plain object of
    the new container that holds [v] under [k], also when [v] is [null] or
    [undefined], which the read replaces by its default; computing it
    allocates nothing. *)
Theorem getCurrentState_after_write h root p k v :
  is_record h root ->
  plain_path p = true ->
  exists h' r l m,
    setDeepValue h root p k v = Some (h', r)
    /\ getCurrentState h' r p = Some (h', VRef l)
    /\ h' !! l = Some (HObj m)
    /\ m !! k = Some v.
Proof.
  intros Hrec _. destruct (is_record_ok _ _ Hrec) as [_ Hn].
  destruct (setDeepValue_total p h root k v Hn) as (h' & r & Hs).
  destruct (path_nodes_fresh p h root k v h' r (length p) Hs (le_n _))
    as (l & m & Hsub & _ & Hl).
  rewrite firstn_all in Hsub.
  exists h', r, l, m. split_and!; [done| |done|].
  - by apply descend_subtree.
  - pose proof (written_subtree _ _ _ _ _ _ _ Hs) as Hw.
    rewrite subtree_app, Hsub in Hw. cbn [subtree enumerable] in Hw.
    rewrite Hl in Hw. by destruct (m !! k) as [u|]; [injection Hw as ->|].
Qed.

Lemma getCurrentState_after_write_witness :
  exists h' r l m,
    setDeepValue sample_heap (VRef 0) ["a"; "c"] "count" VNull = Some (h', r)
    /\ getCurrentState h' r ["a"; "c"] = Some (h', VRef l)
    /\ h' !! l = Some (HObj m)
    /\ m !! "count" = Some VNull.
Proof.
  apply (getCurrentState_after_write sample_heap (VRef 0) ["a"; "c"] "count"
           VNull).
  - eexists _, _. split; reflexivity.
  - reflexivity.
Defined.

(** ** Keys beside the written path *)

(** A sibling key of a spread copy other than [length] holds what the
    original held. *)
Lemma get_spread_same h h' v l k1 x k :
  nullish v = false ->
  h' !! l = Some (HObj (<[k1 := x]> (enumerable h v))) ->
  k <> k1 -> k <> "length" ->
  get h' (VRef l) k = get h v k.
Proof.
  intros Hn Hl Hk Hlen. rewrite (get_record _ _ _ _ Hl).
  rewrite lookup_insert_ne by done. unfold get. rewrite Hn.
  destruct (length_of h v); [|done]. by case_decide.
Qed.

Lemma full_path_read_kept p1 : forall h obj k1 value h' r p2 k2 d,
  heap_ok h -> val_ok h obj -> val_ok h value -> nullish obj = false ->
  diverge (p1 ++ [k1]) (p2 ++ [k2]) -> k2 <> "length" ->
  setDeepValue h obj p1 k1 value = Some (h', r) ->
  read_value h' r p2 k2 d = read_value h obj p2 k2 d.
Proof.
  induction p1 as [|first rest1 IH];
    intros h obj k1 value h' r p2 k2 d Hh Hobj Hv Hn Hdiv Hlen Hs.
  - simpl in Hs. unfold alloc in Hs. injection Hs as <- <-.
    destruct p2 as [|x rest2].
    + rewrite !read_value_nil.
      rewrite (get_spread_same h _ obj _ k1 value k2 Hn (lookup_alloc _ _));
        [done| |done].
      intros ->. by destruct Hdiv as [H1 _].
    + eapply sibling_read; eauto using lookup_alloc, prefix_alloc.
      intros ->. destruct Hdiv as [H1 _]. apply H1. simpl.
      apply prefix_cons, prefix_nil.
  - apply setDeepValue_cons_ok in Hs
      as (v & h1 & child & h2 & l & Hg & Ho & Hs & -> & ->
          & (Hh1 & Hc & Hv1 & Htc) & (Hh2 & Hl) & (Hp1 & Hp2)); [|done..].
    destruct p2 as [|x rest2].
    + rewrite !read_value_nil.
      rewrite (get_spread_same h _ obj _ first (VRef l) k2 Hn (lookup_alloc _ _));
        [done| |done].
      intros ->. destruct Hdiv as [_ H2]. apply H2. simpl.
      apply prefix_cons, prefix_nil.
    + destruct (decide (x = first)) as [->|Hx].
      * apply diverge_cons_same in Hdiv.
        rewrite read_new_node by done.
        rewrite (read_value_cons _ _ _ _ _ _ _ Hg).
        rewrite (IH _ _ _ _ _ _ rest2 k2 d Hh1 Hc Hv1
                   (truthy_not_nullish _ Htc) Hdiv Hlen Hs).
        apply or_empty_inv in Ho as [(-> & -> & ->)|(-> & -> & ->)]; [done|].
        apply read_value_empty_object, lookup_alloc.
      * eapply sibling_read; eauto using lookup_alloc.
        trans h2; [by trans h1|apply prefix_alloc].
Qed.

(** Two different namespaces, none of which has the key among its
    segments, address diverging full paths. *)
Lemma distinct_namespaces_diverge (p1 p2 : list string) (k : string) :
  p1 <> p2 -> k ∉ p1 -> k ∉ p2 -> diverge (p1 ++ [k]) (p2 ++ [k]).
Proof.
  assert (Hhalf : forall a b : list string,
             a <> b -> k ∉ b -> ~ (a ++ [k]) `prefix_of` (b ++ [k])).
  { intros a b Hne Hk [t Ht].
    destruct (decide (t = [])) as [->|Hnil].
    - rewrite app_nil_r in Ht. by apply app_inj_tail in Ht as [-> _].
    - destruct (exists_last Hnil) as (t' & z & ->).
      rewrite !app_assoc in Ht. apply app_inj_tail in Ht as [-> _].
      apply Hk. rewrite <- app_assoc. apply elem_of_app. right.
      apply list_elem_of_here. }
  intros Hne H1 H2. split; apply Hhalf; auto.
Qed.

(** X7: a write at [(p1, k1)] leaves the read of [(p2, k2)] unchanged
    whenever the full paths [p1 ++ [k1]] and [p2 ++ [k2]] diverge and [k2]
    is not ["length"]: this covers a key beside the written key in the same
    namespace, and the keys of a namespace above or below the written
    one.  The segments of both paths and the key that is read are plain. *)
Theorem write_keeps_other_keys h root p1 k1 v p2 k2 d :
  heap_ok h -> is_record h root -> val_ok h v ->
  plain_path p1 = true -> plain_path p2 = true -> plain_key k2 = true ->
  diverge (p1 ++ [k1]) (p2 ++ [k2]) -> k2 <> "length" ->
  exists h' r,
    setDeepValue h root p1 k1 v = Some (h', r)
    /\ read_value h' r p2 k2 d = read_value h root p2 k2 d.
Proof.
  intros Hh Hrec Hv _ _ _ Hdiv Hlen.
  destruct (is_record_ok _ _ Hrec) as [Hr Hn].
  destruct (setDeepValue_total p1 h root k1 v Hn) as (h' & r & Hs).
  exists h', r. split; [done|].
  exact (full_path_read_kept p1 h root k1 v h' r p2 k2 d Hh Hr Hv Hn Hdiv Hlen Hs).
Qed.

Lemma write_keeps_other_keys_witness :
  exists h' r,
    setDeepValue sample_heap (VRef 0) ["a"] "count" (VNum 1) = Some (h', r)
    /\ read_value h' r ["a"; "b"] "count" (VNum 0)
       = read_value sample_heap (VRef 0) ["a"; "b"] "count" (VNum 0).
Proof.
  apply (write_keeps_other_keys sample_heap (VRef 0) ["a"] "count" (VNum 1)
           ["a"; "b"] "count" (VNum 0)).
  - apply (bool_decide_unpack _). vm_compute. exact I.
  - eexists _, _. split; reflexivity.
  - exact I.
  - reflexivity.
  - reflexivity.
  - reflexivity.
  - split; intros [x Hx]; discriminate.
  - discriminate.
Defined.

(** X8: two hooks that use the same key in two different namespaces never
    interfere, whether the namespaces are siblings or one lies inside the
    other, provided the key is not the name of a segment of either
    namespace and is not ["length"]; the key and the segments of both
    namespaces are plain. *)
Theorem same_key_namespaces_independent h root p1 p2 k v d :
  heap_ok h -> is_record h root -> val_ok h v ->
  plain_path p1 = true -> plain_path p2 = true -> plain_key k = true ->
  p1 <> p2 -> k ∉ p1 -> k ∉ p2 -> k <> "length" ->
  exists h' r,
    setDeepValue h root p1 k v = Some (h', r)
    /\ read_value h' r p2 k d = read_value h root p2 k d.
Proof.
  intros Hh Hrec Hv _ _ _ Hne H1 H2 Hlen.
  destruct (is_record_ok _ _ Hrec) as [Hr Hn].
  destruct (setDeepValue_total p1 h root k v Hn) as (h' & r & Hs).
  exists h', r. split; [done|].
  apply (full_path_read_kept p1 h root k v h' r p2 k d Hh Hr Hv Hn); [|done|done].
  by apply distinct_namespaces_diverge.
Qed.

Lemma same_key_namespaces_independent_witness :
  exists h' r,
    setDeepValue sample_heap (VRef 0) ["a"; "b"] "count" (VNum 1) = Some (h', r)
    /\ read_value h' r ["a"] "count" (VNum 0)
       = read_value sample_heap (VRef 0) ["a"] "count" (VNum 0).
Proof.
  apply (same_key_namespaces_independent sample_heap (VRef 0) ["a"; "b"] ["a"]
           "count" (VNum 1) (VNum 0)).
  - apply (bool_decide_unpack _). vm_compute. exact I.
  - eexists _, _. split; reflexivity.
  - exact I.
  - reflexivity.
  - reflexivity.
  - reflexivity.
  - discriminate.
  - apply (bool_decide_unpack _). vm_compute. exact I.
  - apply (bool_decide_unpack _). vm_compute. exact I.
  - discriminate.
Defined.

(** ** Counters *)

(** One click: the read, the increment, the write. *)
Lemma click_step s q k d0 :
  store_ok s ->
  exists h1 cur s',
    read (st_heap s) (st_root s) q k (VNum d0) = Some (h1, cur)
    /\ write s q k (VNum d0) (UFun plus_one) = Some s'
    /\ store_ok s'
    /\ st_heap s `prefix_of` h1 /\ heap_ok h1
    /\ val_ok h1 (plus_one h1 cur).2
    /\ setDeepValue h1 (st_root s) q k (plus_one h1 cur).2
       = Some (st_heap s', st_root s')
    /\ forall d', read_value (st_heap s') (st_root s') q k d'
         = Some (if nullish (plus_one h1 cur).2 then d'
                 else (plus_one h1 cur).2).
Proof.
  intros Hs. pose proof Hs as [Hh Hrec].
  destruct (is_record_ok _ _ Hrec) as [Hr Hn].
  destruct (read_value_total q (st_heap s) (st_root s) k (VNum d0) Hn)
    as [cur Hc].
  apply read_value_read in Hc as [h1 Hread].
  destruct (read_ok _ _ _ _ _ _ _ Hh Hr Hread) as (Hp & Hh1 & Hcur).
  specialize (Hcur I).
  assert (Hnv : val_ok h1 (plus_one h1 cur).2) by (by destruct cur).
  destruct (write_steps s q k (VNum d0) (UFun plus_one) h1 cur h1
              (plus_one h1 cur).2 Hs Hread)
    as (s' & Hw & Hok & _ & Hset & Hrd); [by destruct cur|done|done|done|].
  by exists h1, cur, s'.
Qed.

Lemma clicks_same p k d0 m : forall s n,
  store_ok s ->
  (- max_exact <= n)%Z -> (n + Z.of_nat m <= max_exact)%Z ->
  read_value (st_heap s) (st_root s) p k (VNum d0) = Some (VNum n) ->
  exists s', clicks s k (VNum d0) (repeat p m) = Some s'
    /\ store_ok s'
    /\ read_value (st_heap s') (st_root s') p k (VNum d0)
       = Some (VNum (n + Z.of_nat m)).
Proof.
  induction m as [|m IH]; intros s n Hs Hlo Hhi Hn; simpl.
  - exists s. split_and!; [done|done|]. rewrite Hn. do 2 f_equal. lia.
  - destruct (click_step s p k d0 Hs)
      as (h1 & cur & s1 & Hread & -> & Hs1 & _ & _ & _ & _ & Hrd).
    apply read_read_value in Hread. rewrite Hn in Hread. injection Hread as <-.
    specialize (Hrd (VNum d0)). rewrite plus_one_exact in Hrd by lia.
    destruct (IH s1 (n + 1)%Z Hs1) as (s' & Hc & Hs' & Hr'); [lia|lia|done|].
    exists s'. split_and!; [done|done|]. rewrite Hr'. do 2 f_equal. lia.
Qed.

(** X9: [m] clicks on a counter whose read is the number [n] leave it at
    [n + m], for every namespace path of plain segments and every plain
    key, as long as [n] and [n + m] are at most [2^53] in magnitude. *)
Theorem repeated_clicks s p k d0 n m :
  store_ok s -> plain_path p = true -> plain_key k = true ->
  (- max_exact <= n)%Z -> (n + Z.of_nat m <= max_exact)%Z ->
  read_value (st_heap s) (st_root s) p k (VNum d0) = Some (VNum n) ->
  exists s', clicks s k (VNum d0) (repeat p m) = Some s'
    /\ read_value (st_heap s') (st_root s') p k (VNum d0)
       = Some (VNum (n + Z.of_nat m)).
Proof.
  intros Hs _ _ Hlo Hhi Hn.
  destruct (clicks_same p k d0 m s n Hs Hlo Hhi Hn) as (s' & Hc & _ & Hr).
  by exists s'.
Qed.

Lemma repeated_clicks_witness :
  exists s', clicks sample_store "count" (VNum 0) (repeat ["a"; "b"] 3) = Some s'
    /\ read_value (st_heap s') (st_root s') ["a"; "b"] "count" (VNum 0)
       = Some (VNum (7 + Z.of_nat 3)).
Proof.
  apply (repeated_clicks sample_store ["a"; "b"] "count" 0 7 3).
  - split; [apply (bool_decide_unpack _); vm_compute; exact I|].
    eexists _, _. split; reflexivity.
  - reflexivity.
  - reflexivity.
  - by vm_compute.
  - by vm_compute.
  - reflexivity.
Defined.

Lemma clicks_count ps : forall s k d0,
  store_ok s -> k <> "length" ->
  Forall (fun q => k ∉ q) ps ->
  exists s', clicks s k (VNum d0) ps = Some s'
    /\ store_ok s'
    /\ forall p n, k ∉ p ->
         read_value (st_heap s) (st_root s) p k (VNum d0) = Some (VNum n) ->
         (- max_exact <= n)%Z ->
         (n + Z.of_nat (length (filter (fun q => q = p) ps)) <= max_exact)%Z ->
         read_value (st_heap s') (st_root s') p k (VNum d0)
         = Some (VNum (n + Z.of_nat (length (filter (fun q => q = p) ps)))).
Proof.
  induction ps as [|q ps IH]; intros s k d0 Hs Hlen Hks; simpl.
  - exists s. split_and!; [done|done|].
    intros p n _ -> _ _. do 2 f_equal. simpl. lia.
  - apply Forall_cons in Hks as [Hkq Hks].
    destruct (click_step s q k d0 Hs)
      as (h1 & cur & s1 & Hread & -> & Hs1 & Hp & Hh1 & Hnv & Hset & Hrd).
    destruct (IH s1 k d0 Hs1 Hlen Hks) as (s' & Hc & Hs' & Hcount).
    exists s'. split_and!; [done|done|].
    intros p n Hkp Hn Hlo. destruct Hs as [Hh Hrec].
    destruct (is_record_ok _ _ Hrec) as [Hr Hnul].
    rewrite filter_cons. destruct (decide (q = p)) as [->|Hne].
    + simpl length. intros Hhi.
      apply read_read_value in Hread. rewrite Hn in Hread. injection Hread as <-.
      specialize (Hrd (VNum d0)). rewrite plus_one_exact in Hrd by lia.
      rewrite (Hcount p (n + 1)%Z Hkp Hrd) by lia. do 2 f_equal. lia.
    + intros Hhi. apply Hcount; [done| |done|done]. rewrite <- Hn.
      rewrite <- (read_value_grow p (st_heap s) h1) by done.
      apply (full_path_read_kept q h1 (st_root s) k (plus_one h1 cur).2);
        [done|by apply (val_ok_mono (st_heap s))|done|done| |done|done].
      by apply distinct_namespaces_diverge.
Qed.

(** X10: after any series of clicks on counters that share a key, each in
    its own namespace and each holding a number, every counter shows its
    starting number plus the number of clicks it received, whatever the
    order of the clicks and whether the namespaces are siblings or nested,
    as long as these numbers are at most [2^53] in magnitude; the key is
    plain, as are the segments of the namespaces, and it is not the name of
    a namespace segment, nor ["length"]. *)
Theorem every_counter_counts_its_clicks s k d0 ps :
  store_ok s -> plain_key k = true -> k <> "length" ->
  Forall (fun q => (k ∉ q) /\ plain_path q = true
                   /\ exists n, read_value (st_heap s) (st_root s) q k (VNum d0)
                                = Some (VNum n)) ps ->
  exists s', clicks s k (VNum d0) ps = Some s'
    /\ forall p n, k ∉ p -> plain_path p = true ->
         read_value (st_heap s) (st_root s) p k (VNum d0) = Some (VNum n) ->
         (- max_exact <= n)%Z ->
         (n + Z.of_nat (length (filter (fun q => q = p) ps)) <= max_exact)%Z ->
         read_value (st_heap s') (st_root s') p k (VNum d0)
         = Some (VNum (n + Z.of_nat (length (filter (fun q => q = p) ps)))).
Proof.
  intros Hs _ Hlen Hks.
  destruct (clicks_count ps s k d0 Hs Hlen) as (s' & Hc & _ & Hcount).
  { eapply Forall_impl; [exact Hks|]. by intros q [Hq _]. }
  exists s'. split; [done|]. intros p n Hkp _. by apply Hcount.
Qed.

Lemma every_counter_counts_its_clicks_witness :
  exists s',
    clicks empty_store "count" (VNum 0)
      [["test1"]; ["test1"; "namespace1"]; ["test1"]; ["test1"; "namespace2"]]
    = Some s'
    /\ read_value (st_heap s') (st_root s') ["test1"] "count" (VNum 0)
       = Some (VNum 2)
    /\ read_value (st_heap s') (st_root s') ["test1"; "namespace1"] "count" (VNum 0)
       = Some (VNum 1)
    /\ read_value (st_heap s') (st_root s') ["test1"; "other"] "count" (VNum 0)
       = Some (VNum 0).
Proof.
  destruct (every_counter_counts_its_clicks empty_store "count" 0
              [["test1"]; ["test1"; "namespace1"]; ["test1"];
               ["test1"; "namespace2"]])
    as (s' & Hc & Hcount).
  - split; [apply (bool_decide_unpack _); vm_compute; exact I|].
    eexists _, _. split; reflexivity.
  - reflexivity.
  - discriminate.
  - repeat constructor;
      try (apply (bool_decide_unpack _); vm_compute; exact I);
      by exists 0%Z.
  - exists s'. split_and!; [done| | |].
    + apply (Hcount ["test1"] 0%Z);
        [|reflexivity|reflexivity|by vm_compute|by vm_compute].
      apply (bool_decide_unpack _). vm_compute. exact I.
    + apply (Hcount ["test1"; "namespace1"] 0%Z);
        [|reflexivity|reflexivity|by vm_compute|by vm_compute].
      apply (bool_decide_unpack _). vm_compute. exact I.
    + apply (Hcount ["test1"; "other"] 0%Z);
        [|reflexivity|reflexivity|by vm_compute|by vm_compute].
      apply (bool_decide_unpack _). vm_compute. exact I.
Defined.

(** ** The cost of a write *)




(** ** Memoised paths over renders *)

Lemma compareStringArrays_eq a b : compareStringArrays a b = true <-> a = b.
Proof.
  unfold compareStringArrays. case_decide as Hlen.
  - split; [done|]. intros ->. by destruct Hlen.
  - rewrite compare_loop_spec. split.
    + intros H. apply list_eq. intros i.
      destruct (decide (i < length a)) as [Hi|Hi]; [apply H; lia|].
      rewrite !lookup_ge_None_2; [done|lia|lia].
    + by intros ->.
Qed.

Lemma memo_path_remembered arrays c p :
  memo_path arrays (Some (JSome c)) p
  = JSome (if decide (path_elems arrays p = path_elems arrays c) then c else p).
Proof.
  unfold memo_path, useMemoEqual. simpl.
  destruct (Nat.eqb p c) eqn:Hsame; simpl.
  - apply Nat.eqb_eq in Hsame as ->. by case_decide.
  - unfold compare_paths.
    destruct (compareStringArrays (path_elems arrays p) (path_elems arrays c))
      eqn:Hcmp.
    + apply compareStringArrays_eq in Hcmp. by rewrite decide_True.
    + rewrite decide_False; [done|]. intros Heq.
      apply compareStringArrays_eq in Heq. congruence.
Qed.

(** X12: over successive renders, as long as the path passed in has the
    elements of the first render's path, [useMemoEqual] returns the first
    render's array itself, however many new arrays are passed. *)
Theorem memo_stable_over_renders arrays first rest :
  Forall (fun p => path_elems arrays p = path_elems arrays first) rest ->
  memo_renders arrays None (first :: rest)
  = repeat (JSome first) (S (length rest)).
Proof.
  intros Hall. simpl.
  assert (Hfirst : memo_path arrays None first = JSome first).
  { unfold memo_path, useMemoEqual. simpl. by rewrite Nat.eqb_refl. }
  rewrite Hfirst. f_equal.
  induction Hall as [|p ps Hp _ IH]; simpl; [done|].
  rewrite memo_path_remembered, decide_True by done. by rewrite IH.
Qed.

Lemma memo_stable_over_renders_witness :
  memo_renders [["a"; "b"]; ["a"; "b"]; ["a"; "b"]] None (0 :: [1; 2])
  = repeat (JSome 0) (S (length [1; 2])).
Proof.
  apply (memo_stable_over_renders [["a"; "b"]; ["a"; "b"]; ["a"; "b"]] 0 [1; 2]).
  repeat constructor.
Defined.

(** X13: [useMemoEqual] with [compareStringArrays] replaces the remembered
    array exactly when the elements of the path passed in differ from its
    elements; and rendering again with the same path returns the same
    array as the render before. *)
Theorem memo_replaced_iff_changed arrays ref c p :
  (memo_path arrays (Some (JSome c)) p = JSome c
   <-> p = c \/ path_elems arrays p = path_elems arrays c)
  /\ (memo_path arrays (Some (JSome c)) p = JSome p
      <-> p = c \/ path_elems arrays p <> path_elems arrays c)
  /\ memo_path arrays (Some (memo_path arrays ref p)) p = memo_path arrays ref p.
Proof.
  split_and!.
  - rewrite memo_path_remembered. case_decide as He.
    + split; [by right|done].
    + split; [by intros [= ->]; left|]. intros [->|?]; [done|by destruct He].
  - rewrite memo_path_remembered. case_decide as He.
    + split; [by intros [= ->]; left|]. intros [->|?]; [done|by destruct He].
    + split; [by right|done].
  - assert (Hres : memo_path arrays ref p = JSome p
                   \/ exists c', memo_path arrays ref p = JSome c'
                        /\ path_elems arrays p = path_elems arrays c').
    { destruct ref as [[| |c']|].
      - by left.
      - by left.
      - rewrite memo_path_remembered. case_decide; [right; eauto|by left].
      - left. unfold memo_path, useMemoEqual. simpl. by rewrite Nat.eqb_refl. }
    destruct Hres as [->|(c' & -> & He)];
      rewrite memo_path_remembered; by rewrite decide_True.
Qed.

(** ** [getNestedValue] *)

Lemma getNestedValue_gives_up h v path :
  negb (truthy v) || negb (is_object v) = true ->
  getNestedValue h v path = Some (match path with [] => v | _ => VUndefined end).
Proof. intros Hv. destruct path; simpl; [done|by rewrite Hv]. Qed.

Lemma getNestedValue_undefined h path :
  getNestedValue h VUndefined path = Some VUndefined.
Proof. by destruct path. Qed.

Lemma getNestedValue_app p : forall h v q,
  getNestedValue h v (p ++ q)
  = match getNestedValue h v p with
    | Some w => getNestedValue h w q
    | None => None
    end.
Proof.
  induction p as [|key rest IH]; intros h v q; simpl; [done|].
  destruct (negb (truthy v) || negb (is_object v)) eqn:Hv.
  - destruct (rest ++ q) eqn:E; [|by rewrite getNestedValue_undefined].
    apply app_eq_nil in E as [-> ->]. by rewrite getNestedValue_undefined.
  - destruct (get h v key) as [w|]; [apply IH|done].
Qed.

(** X14: [getNestedValue] never throws, for any value and any path, the
    values [null] and [undefined] included; and looking up a concatenated
    path is looking up its second part in the result of the first. *)
Theorem getNestedValue_total_compositional h v p q :
  (exists w, getNestedValue h v p = Some w)
  /\ (forall w, getNestedValue h v p = Some w ->
        getNestedValue h v (p ++ q) = getNestedValue h w q).
Proof.
  split.
  - revert v. induction p as [|key rest IH]; intros v; simpl; [eauto|].
    destruct (negb (truthy v) || negb (is_object v)) eqn:Hv; [eauto|].
    apply orb_false_elim in Hv as [Ht _]. apply negb_false_iff in Ht.
    destruct (get_total h v key (truthy_not_nullish _ Ht)) as [w ->]. apply IH.
  - intros w Hw. by rewrite getNestedValue_app, Hw.
Qed.

Lemma getNestedValue_total_compositional_witness :
  (exists w, getNestedValue sample_heap VNull ["a"; "b"] = Some w)
  /\ getNestedValue sample_heap (VRef 0) (["a"] ++ ["b"; "count"])
     = getNestedValue sample_heap (VRef 1) ["b"; "count"].
Proof.
  split.
  - apply (getNestedValue_total_compositional sample_heap VNull ["a"; "b"] []).
  - apply (proj2 (getNestedValue_total_compositional sample_heap (VRef 0)
                    ["a"] ["b"; "count"])).
    reflexivity.
Defined.

(** X15: [getNestedValue] does not look into primitives: once the path
    has led to a string, a number, a boolean or a falsy value, every longer
    path yields [undefined]; in particular the [length] and the characters
    of a stored string are not reachable. *)
Theorem getNestedValue_stops_at_primitives h v p w key rest :
  getNestedValue h v p = Some w ->
  truthy w = false \/ is_object w = false ->
  getNestedValue h v (p ++ key :: rest) = Some VUndefined.
Proof.
  intros Hw Hprim. rewrite getNestedValue_app, Hw. simpl.
  destruct Hprim as [->| ->]; [done|by rewrite orb_true_r].
Qed.

Lemma getNestedValue_stops_at_primitives_witness :
  getNestedValue sample_heap (VRef 0) (["s"] ++ "length" :: []) = Some VUndefined.
Proof.
  apply (getNestedValue_stops_at_primitives sample_heap (VRef 0) ["s"]
           (VStr "xy") "length" []).
  - reflexivity.
  - by right.
Defined.

(** ** The reducer atom *)

Lemma dispatch_as_write {A : Type} s path key
    (reducer : heap -> val -> A -> heap * val) initialState action :
  dispatch s path key reducer initialState action
  = write s path key initialState (UFun (fun h v => reducer h v action)).
Proof. reflexivity. Qed.

Section ReducerAtom.
Context {A T : Type}.
Variable reducer : heap -> val -> A -> heap * val.
(** What a stored state stands for, and the reducer on that level. *)
Variable abs : heap -> val -> option T.
Variable step : T -> A -> T.

Hypothesis abs_grow : forall h h' v t,
  heap_ok h -> val_ok h v -> h `prefix_of` h' ->
  abs h v = Some t -> abs h' v = Some t.

Hypothesis reducer_ok : forall h v a t,
  heap_ok h -> val_ok h v -> abs h v = Some t ->
  h `prefix_of` (reducer h v a).1
  /\ heap_ok (reducer h v a).1
  /\ val_ok (reducer h v a).1 (reducer h v a).2
  /\ nullish (reducer h v a).2 = false
  /\ abs (reducer h v a).1 (reducer h v a).2 = Some (step t a).

Lemma dispatch_all_fold actions : forall s path key initialState h1 cur t,
  store_ok s -> val_ok (st_heap s) initialState ->
  read (st_heap s) (st_root s) path key initialState = Some (h1, cur) ->
  abs h1 cur = Some t ->
  exists s' h' v,
    dispatch_all s path key reducer initialState actions = Some s'
    /\ read (st_heap s') (st_root s') path key initialState = Some (h', v)
    /\ abs h' v = Some (fold_left step actions t).
Proof.
  induction actions as [|a rest IH];
    intros s path key initialState h1 cur t Hs Hinit Hread Habs; simpl.
  - by exists s, h1, cur.
  - pose proof Hs as [Hh Hrec]. destruct (is_record_ok _ _ Hrec) as [Hr _].
    destruct (read_ok _ _ _ _ _ _ _ Hh Hr Hread) as (Hp & Hh1 & Hcur).
    specialize (Hcur Hinit).
    destruct (reducer_ok h1 cur a t Hh1 Hcur Habs)
      as (Hp2 & Hh2 & Hnv & Hnn & Habs2).
    destruct (reducer h1 cur a) as [h2 nv] eqn:Hred. simpl in *.
    destruct (write_steps s path key initialState
                (UFun (fun h v => reducer h v a)) h1 cur h2 nv Hs Hread Hred)
      as (s1 & Hw & Hs1 & Hps1 & Hset & Hrd); [by trans h1|done|done|].
    rewrite dispatch_as_write, Hw.
    specialize (Hrd initialState). rewrite Hnn in Hrd.
    apply read_value_read in Hrd as [h1' Hread1].
    destruct Hs1 as [Hhs1 Hrec1]. destruct (is_record_ok _ _ Hrec1) as [Hr1 _].
    destruct (read_ok _ _ _ _ _ _ _ Hhs1 Hr1 Hread1) as (Hp1' & _ & _).
    apply (IH s1 path key initialState h1' nv (step t a));
      [done|by apply (val_ok_mono (st_heap s))|done|].
    apply (abs_grow h2); [done|done| |done].
    trans (st_heap s1); [|done]. by eapply setDeepValue_grows.
Qed.

(** X16: the reducer atom behaves like a reducer: when the stored state
    stands for [t] and the reducer implements [step] on what states stand
    for, then after dispatching a list of actions the state that is read
    stands for [step] folded over the actions from [t]. *)
Theorem reducer_atom_folds s path key initialState actions h1 cur t :
  store_ok s -> val_ok (st_heap s) initialState ->
  read (st_heap s) (st_root s) path key initialState = Some (h1, cur) ->
  abs h1 cur = Some t ->
  exists s' h' v,
    dispatch_all s path key reducer initialState actions = Some s'
    /\ read (st_heap s') (st_root s') path key initialState = Some (h', v)
    /\ abs h' v = Some (fold_left step actions t).
Proof. apply dispatch_all_fold. Qed.

End ReducerAtom.

Lemma counter_value_grow h h' v t :
  heap_ok h -> val_ok h v -> h `prefix_of` h' ->
  counter_value h v = Some t -> counter_value h' v = Some t.
Proof.
  intros _ Hv Hp. unfold counter_value. by rewrite (get_grow h h').
Qed.

Lemma counterReducer_ok h v a t :
  heap_ok h -> val_ok h v -> counter_value h v = Some t ->
  h `prefix_of` (counterReducer h v a).1
  /\ heap_ok (counterReducer h v a).1
  /\ val_ok (counterReducer h v a).1 (counterReducer h v a).2
  /\ nullish (counterReducer h v a).2 = false
  /\ counter_value (counterReducer h v a).1 (counterReducer h v a).2
     = Some (counter_step t a).
Proof.
  intros Hh Hv. unfold counter_value, counterReducer.
  destruct (get h v "value") as [[| | |n| |]|]; try done.
  intros [= ->]. simpl.
  destruct a; unfold alloc; cbn [fst snd];
    (split_and!;
     [apply prefix_alloc
     |apply heap_ok_alloc; [done|]; simpl; by apply map_Forall_singleton
     |simpl; rewrite length_app; simpl; lia
     |done
     |by rewrite (get_record _ _ _ _ (lookup_alloc _ _)), lookup_singleton_eq]).
Qed.

Lemma reducer_atom_folds_witness :
  exists s' h' v,
    dispatch_all reducer_store ["persist"] "reducerCount" counterReducer
      (VRef 1) [INCREMENT; INCREMENT; DECREMENT] = Some s'
    /\ read (st_heap s') (st_root s') ["persist"] "reducerCount" (VRef 1)
       = Some (h', v)
    /\ counter_value h' v = Some 1%Z.
Proof.
  apply (reducer_atom_folds counterReducer counter_value counter_step
           counter_value_grow counterReducer_ok
           reducer_store ["persist"] "reducerCount" (VRef 1)
           [INCREMENT; INCREMENT; DECREMENT]
           [HObj ∅; HObj {["value" := VNum 0]}; HObj ∅] (VRef 1) 0%Z).
  - split; [apply (bool_decide_unpack _); vm_compute; exact I|].
    eexists _, _. split; reflexivity.
  - simpl. lia.
  - reflexivity.
  - reflexivity.
Defined.

(** ** The writer that assigns in place *)

Lemma set_prop_length h l key x : length (set_prop h l key x) = length h.
Proof.
  unfold set_prop. destruct (h !! l) as [[m|xs]|]; [|done..].
  by rewrite length_insert.
Qed.

Lemma set_prop_other h l key x l' :
  l' <> l -> set_prop h l key x !! l' = h !! l'.
Proof.
  intros Hne. unfold set_prop. destruct (h !! l) as [[m|xs]|]; [|done..].
  by rewrite list_lookup_insert_ne.
Qed.

Lemma set_prop_same h l key x m :
  h !! l = Some (HObj m) ->
  set_prop h l key x !! l = Some (HObj (<[key := x]> m)).
Proof.
  intros Hl. unfold set_prop. rewrite Hl.
  apply list_lookup_insert_eq. by eapply lookup_lt_Some.
Qed.

(** The loop only touches the object it starts from and the objects it
    creates, and ends with the value in place. *)
Lemma assign_path_spec segments : forall h current m last newValue,
  h !! current = Some (HObj m) ->
  exists h',
    assign_path h current segments last newValue = Some h'
    /\ length h <= length h'
    /\ (forall l, l < current -> h' !! l = h !! l)
    /\ (exists m', h' !! current = Some (HObj m'))
    /\ getNestedValue h' (VRef current) (segments ++ [last]) = Some newValue
    /\ subtree h' (VRef current) (segments ++ [last]) = Some newValue.
Proof.
  induction segments as [|key rest IH]; intros h current m last newValue Hcur.
  - simpl. eexists. split; [done|].
    pose proof (set_prop_same _ _ last newValue _ Hcur) as Hset.
    split_and!.
    + by rewrite set_prop_length.
    + intros l Hl. apply set_prop_other. lia.
    + eauto.
    + by rewrite (get_record _ _ _ _ Hset), lookup_insert_eq.
    + by rewrite Hset, lookup_insert_eq.
  - cbn [assign_path].
    destruct (get_total h (VRef current) key eq_refl) as [v ->].
    destruct (or_empty h v) as [h1 source] eqn:Ho.
    assert (Hp : h `prefix_of` h1).
    { apply or_empty_inv in Ho as [(_ & -> & _)|(_ & -> & _)];
        [done|apply prefix_alloc]. }
    pose proof (lookup_lt_Some _ _ _ Hcur) as Hlt.
    pose proof (prefix_length _ _ Hp) as Hlen.
    set (h2 := h1 ++ [HObj (enumerable h1 source)]).
    assert (Hcur2 : h2 !! current = Some (HObj m)).
    { unfold h2. rewrite lookup_app_l by lia. by eapply prefix_lookup_Some. }
    pose proof (set_prop_same _ _ key (VRef (length h1)) _ Hcur2) as Hset.
    assert (Hcopy : set_prop h2 current key (VRef (length h1)) !! length h1
                    = Some (HObj (enumerable h1 source))).
    { rewrite set_prop_other by lia. apply lookup_alloc. }
    destruct (IH _ _ _ last newValue Hcopy)
      as (h' & -> & Hlen' & Hold & Hm' & Hget & Hsub).
    rewrite set_prop_length in Hlen'. unfold h2 in Hlen'.
    rewrite length_app in Hlen'. simpl in Hlen'.
    assert (Hcur' : h' !! current = Some (HObj (<[key := VRef (length h1)]> m))).
    { rewrite Hold by lia. exact Hset. }
    exists h'. split_and!; [done|lia| |eauto| |].
    + intros l Hl. rewrite Hold by lia. rewrite set_prop_other by lia.
      unfold h2. rewrite lookup_app_l by lia. symmetry.
      apply prefix_lookup_lt; [lia|done].
    + simpl. rewrite (get_record _ _ _ _ Hcur'), lookup_insert_eq. exact Hget.
    + simpl. rewrite Hcur', lookup_insert_eq. exact Hsub.
Qed.

(** The writer returns a new root and leaves the old store as it was. *)
Lemma write_in_place_returns h state namespace key newValue :
  exists h' l,
    write_in_place h state namespace key newValue = Some (h', VRef l)
    /\ length h <= l
    /\ forall l' o, h !! l' = Some o -> h' !! l' = Some o.
Proof.
  unfold write_in_place.
  destruct (assign_path_spec namespace (h ++ [HObj (enumerable h state)])
              (length h) _ key newValue (lookup_alloc _ _))
    as (h' & -> & _ & Hold & _).
  exists h', (length h). split_and!; [done|done|].
  intros l' o Hl'. pose proof (lookup_lt_Some _ _ _ Hl') as Hlt.
  rewrite Hold by done. by rewrite lookup_app_l.
Qed.

(** X17: the prototype's writer, which assigns properties in place, never
    throws and never touches an object of the store it was given: it
    copies the root and each node along the path before it assigns, so every
    object that existed before the write is unchanged. *)
Theorem write_in_place_frame h state namespace key newValue :
  exists h' l,
    write_in_place h state namespace key newValue = Some (h', VRef l)
    /\ length h <= l
    /\ forall l' o, h !! l' = Some o -> h' !! l' = Some o.
Proof. apply write_in_place_returns. Qed.

(** X18: after the prototype's write of a value at [namespace] and [key],
    none of which is [__proto__], [getNestedValue] along
    [[...namespace, key]] from the new root returns that value, and the new
    container holds it at that path. *)
Theorem write_in_place_roundtrip h state namespace key newValue :
  Forall (fun k => k <> "__proto__") (namespace ++ [key]) ->
  exists h' r,
    write_in_place h state namespace key newValue = Some (h', r)
    /\ getNestedValue h' r (namespace ++ [key]) = Some newValue
    /\ subtree h' r (namespace ++ [key]) = Some newValue.
Proof.
  intros _. unfold write_in_place.
  destruct (assign_path_spec namespace (h ++ [HObj (enumerable h state)])
              (length h) _ key newValue (lookup_alloc _ _))
    as (h' & -> & _ & _ & _ & Hget & Hsub).
  by exists h', (VRef (length h)).
Qed.

Lemma write_in_place_roundtrip_witness :
  exists h' r,
    write_in_place sample_heap (VRef 0) ["a"; "c"] "count" (VNum 1) = Some (h', r)
    /\ getNestedValue h' r (["a"; "c"] ++ ["count"]) = Some (VNum 1)
    /\ subtree h' r (["a"; "c"] ++ ["count"]) = Some (VNum 1).
Proof.
  apply (write_in_place_roundtrip sample_heap (VRef 0) ["a"; "c"] "count"
           (VNum 1)).
  repeat constructor; discriminate.
Defined.

(** Subtrees of old values do not depend on what lies beyond the old
    store. *)
Lemma subtree_agree q : forall h0 h' u,
  heap_ok h0 -> val_ok h0 u ->
  (forall l, l < length h0 -> h' !! l = h0 !! l) ->
  subtree h' u q = subtree h0 u q.
Proof.
  induction q as [|k q' IH]; intros h0 h' u Hh Hu Hagree; [done|].
  cbn [subtree].
  assert (He : enumerable h' u = enumerable h0 u).
  { destruct u as [| | | | |l]; simpl in *; try done. by rewrite Hagree. }
  rewrite He. destruct (enumerable h0 u !! k) as [w|] eqn:Hk; [|done].
  apply IH; [done| |done]. by eapply enumerable_ok.
Qed.

Lemma assign_path_shared segments : forall h0 h current m last newValue h' q w,
  heap_ok h0 ->
  (forall l, l < length h0 -> h !! l = h0 !! l) ->
  length h0 <= current ->
  h !! current = Some (HObj m) ->
  (forall k u, m !! k = Some u -> val_ok h0 u) ->
  assign_path h current segments last newValue = Some h' ->
  diverge q (segments ++ [last]) ->
  subtree h (VRef current) q = Some w ->
  subtree h' (VRef current) q = Some w.
Proof.
  induction segments as [|key rest IH];
    intros h0 h current m last newValue h' q w Hh0 Hagree Hle Hcur Hm Hs Hdiv Hq.
  - destruct q as [|k q'].
    { destruct Hdiv as [H1 _]. destruct H1. apply prefix_nil. }
    simpl in Hs. injection Hs as <-.
    cbn [subtree enumerable] in Hq. rewrite Hcur in Hq.
    destruct (m !! k) as [u|] eqn:Hk; [|done].
    assert (k <> last).
    { intros ->. destruct Hdiv as [_ H2]. apply H2. simpl.
      apply prefix_cons, prefix_nil. }
    cbn [subtree enumerable].
    rewrite (set_prop_same _ _ last newValue _ Hcur), lookup_insert_ne, Hk by done.
    rewrite (subtree_agree q' h0 h u) in Hq by eauto.
    rewrite (subtree_agree q' h0); [done|done|by eauto|].
    intros l Hl. rewrite set_prop_other by lia. by apply Hagree.
  - cbn [assign_path] in Hs.
    destruct (get h (VRef current) key) as [v|] eqn:Hg; [|done].
    destruct (or_empty h v) as [h1 source] eqn:Ho.
    assert (Hp : h `prefix_of` h1).
    { apply or_empty_inv in Ho as [(_ & -> & _)|(_ & -> & _)];
        [done|apply prefix_alloc]. }
    pose proof (lookup_lt_Some _ _ _ Hcur) as Hlt.
    pose proof (prefix_length _ _ Hp) as Hlen.
    set (h2 := h1 ++ [HObj (enumerable h1 source)]) in *.
    assert (Hcur2 : h2 !! current = Some (HObj m)).
    { unfold h2. rewrite lookup_app_l by lia. by eapply prefix_lookup_Some. }
    pose proof (set_prop_same _ _ key (VRef (length h1)) _ Hcur2) as Hset.
    set (h3 := set_prop h2 current key (VRef (length h1))) in *.
    assert (Hcopy : h3 !! length h1 = Some (HObj (enumerable h1 source))).
    { unfold h3. rewrite set_prop_other by lia. apply lookup_alloc. }
    assert (Hagree3 : forall l, l < length h0 -> h3 !! l = h0 !! l).
    { intros l Hl. unfold h3. rewrite set_prop_other by lia.
      unfold h2. rewrite lookup_app_l by lia. rewrite <- Hagree by done.
      symmetry. apply prefix_lookup_lt; [lia|done]. }
    destruct (assign_path_spec rest h3 (length h1) _ last newValue Hcopy)
      as (h'' & Hs' & _ & Hold & _).
    rewrite Hs in Hs'. injection Hs' as <-.
    assert (Hagree' : forall l, l < length h0 -> h' !! l = h0 !! l).
    { intros l Hl. rewrite Hold by lia. by apply Hagree3. }
    assert (Hcur' : h' !! current = Some (HObj (<[key := VRef (length h1)]> m))).
    { rewrite Hold by lia. exact Hset. }
    destruct q as [|k q'].
    { destruct Hdiv as [H1 _]. destruct H1. apply prefix_nil. }
    cbn [subtree enumerable] in Hq. rewrite Hcur in Hq.
    destruct (m !! k) as [u|] eqn:Hk; [|done].
    rewrite (subtree_agree q' h0 h u) in Hq by eauto.
    cbn [subtree enumerable]. rewrite Hcur'.
    destruct (decide (k = key)) as [->|Hne].
    + rewrite lookup_insert_eq. apply diverge_cons_same in Hdiv.
      destruct q' as [|k' q''].
      { destruct Hdiv as [H1 _]. destruct H1. apply prefix_nil. }
      pose proof Hq as Hq0.
      apply subtree_cons_inv in Hq as (u' & Hk' & Hu').
      rewrite (get_record _ _ _ _ Hcur), Hk in Hg. injection Hg as <-.
      assert (Hu : val_ok h0 u) by eauto.
      assert (He : enumerable h u = enumerable h0 u).
      { destruct u as [| | | | |l]; simpl in *; try done. by rewrite Hagree. }
      assert (Htu : truthy u = true).
      { rewrite <- He in Hk'. by destruct (enumerable_get _ _ _ _ Hk'). }
      rewrite or_empty_truthy in Ho by done. injection Ho as <- <-.
      apply (IH h0 h3 (length h) (enumerable h u) last newValue h' (k' :: q'') w);
        [done|done|lia|done| |done|done|].
      * intros j x Hj. rewrite He in Hj. by eapply enumerable_ok.
      * cbn [subtree enumerable]. rewrite Hcopy, He, Hk'.
        by rewrite (subtree_agree q'' h0 h3) by (eauto using enumerable_ok).
    + rewrite lookup_insert_ne, Hk by done.
      by rewrite (subtree_agree q' h0 h') by eauto.
Qed.

(** X19: the prototype's writer shares structure as well: at every path
    that diverges from the written path, its new container holds the very
    value (for an object: the very location) that the old container held
    there. *)
Theorem write_in_place_sharing h state namespace key newValue q w :
  heap_ok h -> val_ok h state ->
  diverge q (namespace ++ [key]) ->
  subtree h state q = Some w ->
  exists h' r,
    write_in_place h state namespace key newValue = Some (h', r)
    /\ subtree h' r q = Some w.
Proof.
  intros Hh Hstate Hdiv Hq.
  destruct (write_in_place_returns h state namespace key newValue)
    as (h' & l & Hw & _ & _).
  exists h', (VRef l). split; [done|].
  unfold write_in_place in Hw.
  destruct (assign_path (h ++ [HObj (enumerable h state)]) (length h)
              namespace key newValue) as [h''|] eqn:Hs; [|done].
  injection Hw as <- <-.
  apply (assign_path_shared namespace h (h ++ [HObj (enumerable h state)])
           (length h) (enumerable h state) key newValue h'' q w);
    [done| |done|apply lookup_alloc| |done|done|].
  - intros l Hl. by rewrite lookup_app_l.
  - intros k u Hk. by eapply enumerable_ok.
  - destruct q as [|k q']; [by destruct Hdiv as [[] _]; apply prefix_nil|].
    apply subtree_cons_inv in Hq as (u & Hk & Hu).
    cbn [subtree enumerable]. rewrite lookup_alloc, Hk.
    eapply subtree_grow; [done|apply prefix_alloc].
Qed.

Lemma write_in_place_sharing_witness :
  exists h' r,
    write_in_place sample_heap (VRef 0) ["a"; "c"] "count" (VNum 1) = Some (h', r)
    /\ subtree h' r ["a"; "b"] = Some (VRef 2).
Proof.
  apply (write_in_place_sharing sample_heap (VRef 0) ["a"; "c"] "count" (VNum 1)
           ["a"; "b"] (VRef 2)).
  - apply (bool_decide_unpack _). vm_compute. exact I.
  - simpl. lia.
  - split; intros [x Hx]; discriminate.
  - reflexivity.
Defined.

(** ** The two reads *)

Lemma no_strings_get h l k w :
  no_strings h -> get h (VRef l) k = Some w -> is_string w = false.
Proof.
  intros Hns. unfold get. simpl.
  destruct (h !! l) as [[m|xs]|] eqn:Hl.
  - intros [= <-]. destruct (m !! k) as [u|] eqn:Hk; [|done].
    eapply Forall_lookup_1 in Hns; [|exact Hl]. exact (Hns k u Hk).
  - case_decide; intros [= <-]; [done|].
    destruct (index_props xs !! k) as [u|] eqn:Hk; [|done].
    apply index_props_elem in Hk.
    eapply Forall_lookup_1 in Hns; [|exact Hl]. simpl in Hns.
    by eapply Forall_forall in Hns.
  - intros [= <-]. by rewrite lookup_empty.
Qed.

Lemma reads_agree_from namespace : forall h v key d,
  no_strings h -> is_string v = false -> nullish v = false ->
  read_nested h v namespace key d = read_value h v namespace key d.
Proof.
  induction namespace as [|segment rest IH]; intros h v key d Hns Hstr Hn.
  - unfold read_nested. rewrite read_value_nil. simpl.
    destruct v as [| |b|n| |l]; try done.
    + rewrite orb_true_r. unfold get. simpl. by rewrite lookup_empty.
    + rewrite orb_true_r. unfold get. simpl. by rewrite lookup_empty.
    + simpl. by destruct (get h (VRef l) key).
  - unfold read_nested. simpl.
    destruct (get_total h v segment Hn) as [w Hw].
    rewrite (read_value_cons _ _ _ _ _ _ _ Hw).
    destruct v as [| |b|n| |l]; try done.
    + rewrite orb_true_r. simpl. unfold get in Hw. simpl in Hw.
      rewrite lookup_empty in Hw. by injection Hw as <-.
    + rewrite orb_true_r. simpl. unfold get in Hw. simpl in Hw.
      rewrite lookup_empty in Hw. by injection Hw as <-.
    + simpl. rewrite Hw. destruct (truthy w) eqn:Ht.
      * apply (IH h w key d Hns); [by eapply no_strings_get|].
        by apply truthy_not_nullish.
      * rewrite getNestedValue_gives_up by (by rewrite Ht).
        by destruct (rest ++ [key]) eqn:E; [destruct rest|].
Qed.

(** X20: on a container that holds no string, the prototype's read
    ([getNestedValue] then [??]) and the current read return the same value
    for every namespace of plain segments, every plain key and every
    default. *)
Theorem reads_agree_without_strings h root namespace key d :
  no_strings h -> is_record h root ->
  plain_path namespace = true -> plain_key key = true ->
  read_nested h root namespace key d = read_value h root namespace key d.
Proof.
  intros Hns (l & m & -> & _) _ _. by apply reads_agree_from.
Qed.

Lemma reads_agree_without_strings_witness :
  read_nested [HObj {["a" := VRef 1]}; HObj {["count" := VNum 7]}] (VRef 0)
    ["a"] "count" (VNum 0)
  = read_value [HObj {["a" := VRef 1]}; HObj {["count" := VNum 7]}] (VRef 0)
      ["a"] "count" (VNum 0).
Proof.
  apply (reads_agree_without_strings
           [HObj {["a" := VRef 1]}; HObj {["count" := VNum 7]}] (VRef 0)
           ["a"] "count" (VNum 0)).
  - repeat constructor; by apply map_Forall_singleton.
  - eexists _, _. split; reflexivity.
  - reflexivity.
  - reflexivity.
Defined.

(** The prototype's writer on the empty container: the root copy first,
    then a copy per level, each assigned into its parent. *)
Example write_in_place_on_empty :
  write_in_place [HObj ∅] (VRef 0) ["a"; "b"] "count" (VNum 1)
  = Some ([HObj ∅;
           HObj {["a" := VRef 3]};
           HObj ∅;
           HObj {["b" := VRef 5]};
           HObj ∅;
           HObj {["count" := VNum 1]}], VRef 1).
Proof. by vm_compute. Qed.

(** ** Two writes *)

(** X21: writes accumulate: after a write of [v1] at [(p1, k1)] followed
    by a write of [v2] at [(p2, k2)], at paths of plain segments, with
    diverging full paths and [k1] other than ["length"], both values are
    read back (each replaced by the read's default when it is [null] or
    [undefined]). *)
Theorem two_writes_accumulate h root p1 k1 v1 p2 k2 v2 d :
  heap_ok h -> is_record h root -> val_ok h v1 -> val_ok h v2 ->
  plain_path p1 = true -> plain_path p2 = true ->
  diverge (p2 ++ [k2]) (p1 ++ [k1]) -> k1 <> "length" ->
  exists h1 r1 h2 r2,
    setDeepValue h root p1 k1 v1 = Some (h1, r1)
    /\ setDeepValue h1 r1 p2 k2 v2 = Some (h2, r2)
    /\ read_value h2 r2 p1 k1 d = Some (if nullish v1 then d else v1)
    /\ read_value h2 r2 p2 k2 d = Some (if nullish v2 then d else v2).
Proof.
  intros Hh Hrec Hv1 Hv2 _ _ Hdiv Hlen.
  destruct (is_record_ok _ _ Hrec) as [Hr Hn].
  destruct (setDeepValue_total p1 h root k1 v1 Hn) as (h1 & r1 & Hs1).
  destruct (setDeepValue_ok _ _ _ _ _ _ _ Hh Hr Hv1 Hs1) as [Hh1 Hr1].
  destruct (setDeepValue_grows _ _ _ _ _ _ _ Hs1) as [Hp1 (l & m & -> & _ & _)].
  destruct (setDeepValue_total p2 h1 (VRef l) k2 v2 eq_refl) as (h2 & r2 & Hs2).
  pose proof (val_ok_mono _ _ _ Hv2 Hp1) as Hv2'.
  exists h1, (VRef l), h2, r2. split_and!; [done|done| |].
  - rewrite (full_path_read_kept p2 h1 (VRef l) k2 v2 h2 r2 p1 k1 d
               Hh1 Hr1 Hv2' eq_refl Hdiv Hlen Hs2).
    exact (read_after_write _ _ _ _ _ d _ _ Hh Hr Hv1 Hs1).
  - exact (read_after_write _ _ _ _ _ d _ _ Hh1 Hr1 Hv2' Hs2).
Qed.

Lemma two_writes_accumulate_witness :
  exists h1 r1 h2 r2,
    setDeepValue sample_heap (VRef 0) ["a"] "first" (VNum 1) = Some (h1, r1)
    /\ setDeepValue h1 r1 ["a"] "second" (VNum 2) = Some (h2, r2)
    /\ read_value h2 r2 ["a"] "first" (VNum 0) = Some (VNum 1)
    /\ read_value h2 r2 ["a"] "second" (VNum 0) = Some (VNum 2).
Proof.
  apply (two_writes_accumulate sample_heap (VRef 0) ["a"] "first" (VNum 1)
           ["a"] "second" (VNum 2) (VNum 0)).
  - apply (bool_decide_unpack _). vm_compute. exact I.
  - eexists _, _. split; reflexivity.
  - exact I.
  - exact I.
  - reflexivity.
  - reflexivity.
  - split; intros [x Hx]; discriminate.
  - discriminate.
Defined.
